(** * Prompt Store: the FastAPI / Neo4j service of [backend/main.py]

    The development embeds the three transaction functions
    ([_create_prompt], [_get_prompt], [_search_prompts]), the three
    endpoints ([create_prompt], [get_prompt], [search_prompts]) and the
    route table of the application, over an executable model of the
    property graph the Cypher statements act on. *)

From Stdlib Require Import QArith Ascii.
From stdpp Require Import sorting numbers.
From stdpp Require Import base tactics option list sets strings.

Local Open Scope string_scope.
Local Open Scope list_scope.
Local Open Scope nat_scope.

(** ** Values exchanged with the driver and returned to the client

    Python values are dynamically typed; the ones that occur are [None],
    strings, floats (relevance scores, finite, so ordered as rationals),
    lists, graph nodes (read through their property map) and dicts. *)

#[warnings="-register-all"]
Inductive value :=
| VNull
| VStr (s : string)
| VFloat (q : Q)
| VList (l : list value)
| VNode (props : list (string * value))
| VDict (d : list (string * value)).

(** A driver [Record]: an ordered collection of named fields. *)
Definition record := list (string * value).

Fixpoint assoc {A} (k : string) (l : list (string * A)) : option A :=
  match l with
  | [] => None
  | (k', v) :: l' => if decide (k = k') then Some v else assoc k l'
  end.

Definition of_option (o : option string) : value :=
  match o with Some s => VStr s | None => VNull end.

(** Python truthiness, as used by [if record], [if not prompt] and
    [prompt.tags or []]. *)
Definition truthy (v : value) : bool :=
  match v with
  | VNull => false
  | VStr s => negb (String.eqb s "")
  | VFloat q => negb (Qeq_bool q 0)
  | VList l => match l with [] => false | _ => true end
  | VNode _ => true
  | VDict d => match d with [] => false | _ => true end
  end.

(** ** The property graph *)

Inductive label := Prompt | Tag.

#[global] Instance label_eq_dec : EqDecision label.
Proof. solve_decision. Defined.

Record node := Node {
  node_id : nat;
  node_label : label;
  node_props : list (string * string)
}.

#[global] Instance node_eq_dec : EqDecision node.
Proof. solve_decision. Defined.

Record rel := Rel {
  rel_src : nat;
  rel_type : string;
  rel_dst : nat
}.

#[global] Instance rel_eq_dec : EqDecision rel.
Proof. solve_decision. Defined.

Record ft_index := FtIndex {
  ix_name : string;
  ix_label : label;
  ix_prop : string
}.

Record graph := Graph {
  g_nodes : list node;
  g_rels : list rel;
  g_next : nat;
  g_indexes : list ft_index
}.

#[global] Instance ft_index_eq_dec : EqDecision ft_index.
Proof. solve_decision. Defined.

#[global] Instance graph_eq_dec : EqDecision graph.
Proof. solve_decision. Defined.

Definition empty_graph : graph := Graph [] [] 0 [].

Definition prop (n : node) (k : string) : option string := assoc k (node_props n).

Definition prop_value (n : node) (k : string) : value := of_option (prop n k).

Definition node_value (n : node) : value :=
  VNode (map (λ kv, (kv.1, VStr kv.2)) (node_props n)).

(** A node pattern [(x:L {k: v})]. *)
Definition node_matches (l : label) (k v : string) (n : node) : Prop :=
  node_label n = l ∧ prop n k = Some v.

#[global] Instance node_matches_dec l k v n : Decision (node_matches l k v n).
Proof. unfold node_matches. apply _. Defined.

Definition find_nodes (l : label) (k v : string) (g : graph) : list node :=
  filter (node_matches l k v) (g_nodes g).

(** A property that is [null] in a [CREATE] map is not stored. *)
Definition stored_props (m : list (string * option string)) : list (string * string) :=
  omap (λ kv, match kv.2 with Some v => Some (kv.1, v) | None => None end) m.

Definition add_node (l : label) (m : list (string * option string)) (g : graph) : node * graph :=
  let n := Node (g_next g) l (stored_props m) in
  (n, Graph (g_nodes g ++ [n]) (g_rels g) (S (g_next g)) (g_indexes g)).

Definition has_rel (r : rel) (g : graph) : bool := bool_decide (r ∈ g_rels g).

Definition add_rel (r : rel) (g : graph) : graph :=
  Graph (g_nodes g) (g_rels g ++ [r]) (g_next g) (g_indexes g).

Definition has_index (name : string) (g : graph) : bool :=
  bool_decide (name ∈ map ix_name (g_indexes g)).

Definition add_index (ix : ft_index) (g : graph) : graph :=
  Graph (g_nodes g) (g_rels g) (g_next g) (g_indexes g ++ [ix]).

(** ** Transactions

    A transaction function runs against a working copy of the graph. The
    connection can be lost at any backend operation: [tx_budget] counts the
    operations that still succeed ([None]: the connection stays up). A
    failure keeps the working copy as it was when the failure struck, so
    that what a roll-back discards is explicit. *)

Inductive error :=
| ServiceUnavailable
| ClientError (code : string)
| KeyError (key : string)
| TypeError.

Record txstate := TxState {
  tx_work : graph;
  tx_budget : option nat
}.

Inductive outcome (A : Type) :=
| Done (a : A) (s : txstate)
| Failed (e : error) (s : txstate).
Arguments Done {A} a s.
Arguments Failed {A} e s.

Definition TxM (A : Type) : Type := txstate → outcome A.

#[global] Instance TxM_ret : MRet TxM := λ A a s, Done a s.

#[global] Instance TxM_bind : MBind TxM := λ A B f m s,
  match m s with
  | Done a s' => f a s'
  | Failed e s' => Failed e s'
  end.

Definition raise {A} (e : error) : TxM A := λ s, Failed e s.

Definition tick : TxM unit := λ s,
  match tx_budget s with
  | None => Done () s
  | Some 0 => Failed ServiceUnavailable s
  | Some (S k) => Done () (TxState (tx_work s) (Some k))
  end.

Definition get_graph : TxM graph := λ s, Done (tx_work s) s.

Definition put_graph (g : graph) : TxM unit := λ s, Done () (TxState g (tx_budget s)).

(** ** Cypher clauses *)

(** [CREATE (x:L {m})] *)
Definition cy_create (l : label) (m : list (string * option string)) : TxM node :=
  tick;;
  g ← get_graph;
  let '(n, g') := add_node l m g in
  put_graph g';;
  mret n.

(** [MATCH (x:L {k: v})] *)
Definition cy_match (l : label) (k v : string) : TxM (list node) :=
  tick;;
  g ← get_graph;
  mret (find_nodes l k v g).

(** [MERGE (x:L {k: v})]: every node that matches, or a new one when none
    does. *)
Definition cy_merge_node (l : label) (k v : string) : TxM (list node) :=
  ms ← cy_match l k v;
  match ms with
  | [] => n ← cy_create l [(k, Some v)]; mret [n]
  | _ => mret ms
  end.

(** [MERGE (a)-[:ty]->(b)] with both ends bound. *)
Definition cy_merge_rel (a : node) (ty : string) (b : node) : TxM unit :=
  tick;;
  g ← get_graph;
  let r := Rel (node_id a) ty (node_id b) in
  if has_rel r g then mret () else put_graph (add_rel r g).

(** [FOREACH (x IN l | body)]: the updates of one iteration are seen by the
    next. *)
Fixpoint cy_foreach {A} (l : list A) (body : A → TxM unit) : TxM unit :=
  match l with
  | [] => mret ()
  | x :: l' => body x;; cy_foreach l' body
  end.

(** [OPTIONAL MATCH (a)-[:ty]->(x:L)]: one row per relationship, or a
    single [null] row. *)
Definition out_neighbours (a : node) (ty : string) (l : label) (g : graph) : list node :=
  r ← g_rels g;
  if decide (rel_src r = node_id a ∧ rel_type r = ty)
  then filter (λ n, node_id n = rel_dst r ∧ node_label n = l) (g_nodes g)
  else [].

Definition cy_optional_match_out (a : node) (ty : string) (l : label) : TxM (list (option node)) :=
  tick;;
  g ← get_graph;
  match out_neighbours a ty l g with
  | [] => mret [None]
  | ns => mret (Some <$> ns)
  end.

(** [collect(x.k)]: [null] values are skipped. *)
Definition cy_collect (k : string) (rows : list (option node)) : list string :=
  omap (λ o, n ← o; prop n k) rows.

(** [CREATE FULLTEXT INDEX name [IF NOT EXISTS] FOR (x:L) ON EACH [x.k]] *)
Definition cy_create_fulltext_index (if_not_exists : bool) (ix : ft_index) : TxM unit :=
  tick;;
  g ← get_graph;
  if has_index (ix_name ix) g
  then (if if_not_exists then mret ()
        else raise (ClientError "EquivalentSchemaRuleAlreadyExists"))
  else put_graph (add_index ix g).

(** ** The full-text engine

    [db.index.fulltext.queryNodes] hands the query string to the engine of
    the store, which parses it in its own query language and scores the
    indexed texts. Neither the language nor the scoring is fixed by the
    service, so both are parameters: [parse_query] may reject a string, and
    [relevance] gives the score of a text that matches ([None]: no match). *)

Record engine := Engine {
  lquery : Type;
  parse_query : string → option lquery;
  relevance : lquery → list string → string → option Q
}.

Definition find_index (name : string) (g : graph) : option ft_index :=
  head (filter (λ ix, ix_name ix = name) (g_indexes g)).

Definition indexed_nodes (ix : ft_index) (g : graph) : list node :=
  filter (λ n, node_label n = ix_label ix ∧ is_Some (prop n (ix_prop ix))) (g_nodes g).

Definition scored (E : engine) (lq : lquery E) (ix : ft_index) (docs : list node) : list (node * Q) :=
  let corpus := omap (λ n, prop n (ix_prop ix)) docs in
  omap (λ n, t ← prop n (ix_prop ix); s ← relevance E lq corpus t; Some (n, s)) docs.

(** [CALL db.index.fulltext.queryNodes(name, q) YIELD node, score]. The
    procedure looks the index up in the working copy, so it finds an index
    that the same transaction created. The store itself populates a new
    index in the background and may not have it online at once; the
    endpoint never gets there, since the read transaction it uses refuses
    the creation (see [read_only]). *)
Definition cy_fulltext_query (E : engine) (name q : string) : TxM (list (node * Q)) :=
  tick;;
  g ← get_graph;
  match find_index name g with
  | None => raise (ClientError "ProcedureCallFailed: no such fulltext index")
  | Some ix =>
      match parse_query E q with
      | None => raise (ClientError "ProcedureCallFailed: query parse error")
      | Some lq => mret (scored E lq ix (indexed_nodes ix g))
      end
  end.

(** [ORDER BY score DESC] and [LIMIT n] *)
Definition score_ge (a b : node * Q) : Prop := (b.2 <= a.2)%Q.

#[global] Instance score_ge_dec : RelDecision score_ge.
Proof. intros a b. unfold score_ge, Qle. apply _. Defined.

Definition cy_order_by_score_desc (rows : list (node * Q)) : list (node * Q) :=
  merge_sort score_ge rows.

Definition cy_limit {A} (n : nat) (rows : list A) : list A := take n rows.

(** ** The four statements of the service *)

Definition nl : string := String (Ascii.ascii_of_nat 10) "".

Definition create_query : string :=
  "CREATE (p:Prompt {id: $id, text: $text, source: $source})" +:+ nl +:+
  "FOREACH (tag IN $tags | MERGE (t:Tag {name: tag}) MERGE (p)-[:HAS_TAG]->(t))" +:+ nl +:+
  "RETURN p.id AS id".

Definition get_query : string :=
  "MATCH (p:Prompt {id: $id}) " +:+
  "OPTIONAL MATCH (p)-[:HAS_TAG]->(t:Tag) " +:+
  "RETURN p, collect(t.name) AS tags".

Definition index_query : string :=
  "CREATE FULLTEXT INDEX promptTextIndex IF NOT EXISTS FOR (p:Prompt) ON EACH [p.text]".

Definition search_query : string :=
  "CALL db.index.fulltext.queryNodes('promptTextIndex', $q) " +:+
  "YIELD node, score " +:+
  "RETURN node.id AS id, node.text AS text, node.source AS source, score " +:+
  "ORDER BY score DESC LIMIT 10".

Definition cypher_create (id text : string) (source : option string) (tags : list string)
  : TxM (list record) :=
  p ← cy_create Prompt [("id", Some id); ("text", Some text); ("source", source)];
  cy_foreach tags (λ tag,
    ts ← cy_merge_node Tag "name" tag;
    cy_foreach ts (λ t, cy_merge_rel p "HAS_TAG" t));;
  mret [[("id", prop_value p "id")]].

Definition cypher_get (id : string) : TxM (list record) :=
  ps ← cy_match Prompt "id" id;
  mapM (λ p,
    ts ← cy_optional_match_out p "HAS_TAG" Tag;
    mret [("p", node_value p); ("tags", VList (VStr <$> cy_collect "name" ts))]) ps.

Definition cypher_index : TxM (list record) :=
  cy_create_fulltext_index true (FtIndex "promptTextIndex" Prompt "text");;
  mret [].

Definition search_row (hit : node * Q) : record :=
  [("id", prop_value hit.1 "id"); ("text", prop_value hit.1 "text");
   ("source", prop_value hit.1 "source"); ("score", VFloat hit.2)].

Definition cypher_search (E : engine) (q : string) : TxM (list record) :=
  hits ← cy_fulltext_query E "promptTextIndex" q;
  mret (search_row <$> cy_limit 10 (cy_order_by_score_desc hits)).

(** Statement parameters, as the driver passes them. *)
Definition param_str (params : record) (k : string) : TxM string :=
  match assoc k params with
  | Some (VStr s) => mret s
  | Some _ => raise (ClientError "TypeError")
  | None => raise (ClientError "ParameterMissing")
  end.

Definition param_opt_str (params : record) (k : string) : TxM (option string) :=
  match assoc k params with
  | Some (VStr s) => mret (Some s)
  | Some VNull => mret None
  | Some _ => raise (ClientError "TypeError")
  | None => raise (ClientError "ParameterMissing")
  end.

Definition as_str (v : value) : option string :=
  match v with VStr s => Some s | _ => None end.

Definition param_str_list (params : record) (k : string) : TxM (list string) :=
  match assoc k params with
  | Some (VList l) =>
      match mapM as_str l with
      | Some ss => mret ss
      | None => raise (ClientError "TypeError")
      end
  | Some _ => raise (ClientError "TypeError")
  | None => raise (ClientError "ParameterMissing")
  end.

(** [tx.run(query, **params)] against the store: the statement is
    recognised by its text. *)
Definition neo4j_run (E : engine) (query : string) (params : record) : TxM (list record) :=
  if decide (query = create_query) then
    id ← param_str params "id";
    text ← param_str params "text";
    source ← param_opt_str params "source";
    tags ← param_str_list params "tags";
    cypher_create id text source tags
  else if decide (query = get_query) then
    id ← param_str params "id";
    cypher_get id
  else if decide (query = index_query) then
    cypher_index
  else if decide (query = search_query) then
    q ← param_str params "q";
    cypher_search E q
  else raise (ClientError "SyntaxError").

(** ** The transaction functions of [backend/main.py]

    They are written against the [tx] they receive: [run] is [tx.run]. *)

Section transaction_functions.
Variable run : string → record → TxM (list record).

(** [result.single()]: the first record, [None] when there is none. A
    record is falsy when it has no field. *)
Definition single (result : list record) : option record := head result.

(** [record[key]] *)
Definition getitem (r : record) (key : string) : TxM value :=
  match assoc key r with
  | Some v => mret v
  | None => raise (KeyError key)
  end.

(** [p[key]] on a node *)
Definition node_getitem (p : value) (key : string) : TxM value :=
  match p with
  | VNode props => getitem props key
  | _ => raise TypeError
  end.

(** [p.get(key)] on a node *)
Definition node_get (p : value) (key : string) : TxM value :=
  match p with
  | VNode props => mret (default VNull (assoc key props))
  | _ => raise TypeError
  end.

Definition _create_prompt (prompt_id text : string) (source : option string)
    (tags : list string) : TxM value :=
  result ← run create_query
    [("id", VStr prompt_id); ("text", VStr text); ("source", of_option source);
     ("tags", VList (VStr <$> tags))];
  match single result with
  | Some ((_ :: _) as record) => getitem record "id"
  | _ => mret VNull
  end.

Definition _get_prompt (prompt_id : string) : TxM value :=
  result ← run get_query [("id", VStr prompt_id)];
  match single result with
  | Some ((_ :: _) as record) =>
      p ← getitem record "p";
      id ← node_getitem p "id";
      text ← node_getitem p "text";
      source ← node_get p "source";
      tags ← getitem record "tags";
      mret (VDict [("id", id); ("text", text); ("source", source); ("tags", tags)])
  | _ => mret VNull
  end.

Definition search_hit (record : record) : TxM value :=
  id ← getitem record "id";
  text ← getitem record "text";
  source ← getitem record "source";
  score ← getitem record "score";
  mret (VDict [("id", id); ("text", text); ("source", source); ("score", score)]).

Definition _search_prompts (query_string : string) : TxM value :=
  run index_query [];;
  result ← run search_query [("q", VStr query_string)];
  hits ← mapM search_hit result;
  mret (VList hits).
End transaction_functions.

(** ** Sessions and managed transactions

    The committed graph is [w_db]. A managed transaction runs its function
    on a working copy; the copy replaces [w_db] only when the function
    returns and the commit goes through. The counters record what the
    service asked of the driver.

    [session.write_transaction] hands its function a transaction that may
    write. [session.read_transaction] hands it one in READ access mode, in
    which the store refuses a statement that would change the graph, a
    schema statement included ([Neo.ClientError.Statement.AccessMode]); a
    statement that changes nothing goes through: a [MATCH], a procedure
    that reads, a [CREATE ... IF NOT EXISTS] of what exists.

    The function is attempted once: the retries the driver makes on
    transient errors are left out. A connection lost while committing is
    taken to leave the committed graph as it was, where the driver reports
    an outcome it does not know. Transactions do not overlap. *)

Record world := World {
  w_db : graph;
  w_sessions : nat;
  w_transactions : nat
}.

(** What one request draws from outside: the identifier [uuid.uuid4()]
    yields, and the operation at which the connection is lost, if any. *)
Record env := Env {
  e_uuid : string;
  e_fault : option nat
}.

(** [tx.run] of a transaction in READ access mode. *)
Definition read_only (run : string → record → TxM (list record))
    (query : string) (params : record) : TxM (list record) := λ s,
  match run query params s with
  | Done a s' =>
      if decide (tx_work s' = tx_work s) then Done a s'
      else Failed (ClientError "AccessMode") (TxState (tx_work s) (tx_budget s'))
  | Failed e s' => Failed e s'
  end.

Definition open_session (w : world) : world :=
  World (w_db w) (S (w_sessions w)) (w_transactions w).

Definition run_transaction {A} (work : TxM A) (fault : option nat) (w : world)
  : (error + A) * world :=
  let w1 := World (w_db w) (w_sessions w) (S (w_transactions w)) in
  match work (TxState (w_db w) fault) with
  | Failed e _ => (inl e, w1)
  | Done a s =>
      match tick s with
      | Failed e _ => (inl e, w1)
      | Done _ s' => (inr a, World (tx_work s') (w_sessions w) (S (w_transactions w)))
      end
  end.

(** ** The endpoints *)

Record PromptCreate := {
  pc_text : string;
  pc_source : option string;
  pc_tags : option (list string)
}.

(** [tags or []] *)
Definition or_empty (tags : option (list string)) : list string :=
  match tags with
  | Some ((_ :: _) as l) => l
  | _ => []
  end.

Inductive handler_outcome :=
| Return (v : value)
| HTTPException (status_code : nat) (detail : string)
| Raised (e : error).

Section endpoints.
(** [tx.run] of the transactions the driver hands out. *)
Variable run : string → record → TxM (list record).

Definition write_transaction {A}
    (fn : (string → record → TxM (list record)) → TxM A) := run_transaction (fn run).

Definition read_transaction {A}
    (fn : (string → record → TxM (list record)) → TxM A) :=
  run_transaction (fn (read_only run)).

Definition create_prompt (prompt : PromptCreate) (ev : env) (w : world)
  : handler_outcome * world :=
  let prompt_id := e_uuid ev in
  let tags := or_empty (pc_tags prompt) in
  let session := open_session w in
  match write_transaction
          (λ tx, _create_prompt tx prompt_id (pc_text prompt) (pc_source prompt) tags)
          (e_fault ev) session with
  | (inl e, w') => (Raised e, w')
  | (inr created_id, w') => (Return (VDict [("id", created_id)]), w')
  end.

Definition get_prompt (prompt_id : string) (ev : env) (w : world)
  : handler_outcome * world :=
  let session := open_session w in
  match read_transaction (λ tx, _get_prompt tx prompt_id) (e_fault ev) session with
  | (inl e, w') => (Raised e, w')
  | (inr prompt, w') =>
      if truthy prompt then (Return prompt, w')
      else (HTTPException 404 "Prompt not found", w')
  end.

Definition search_prompts (q : string) (ev : env) (w : world)
  : handler_outcome * world :=
  let session := open_session w in
  match read_transaction (λ tx, _search_prompts tx q) (e_fault ev) session with
  | (inl e, w') => (Raised e, w')
  | (inr results, w') => (Return results, w')
  end.
End endpoints.

(** ** Routing and request validation

    [req_body] is the body of the request once decoded as JSON ([None]: no
    body). A body that cannot be decoded is answered by the framework
    before validation and is not a request of this model. *)

Record request := Request {
  req_method : string;
  req_path : string;
  req_query : list (string * string);
  req_body : option value
}.

Record response := Response {
  resp_status : nat;
  resp_body : value
}.

Inductive segment := Lit (s : string) | Param (name : string).

Inductive endpoint := EP_create_prompt | EP_get_prompt | EP_search_prompts.

Record route := Route {
  rt_methods : list string;
  rt_path : list segment;
  rt_endpoint : endpoint
}.

(** The routes, in the order the decorators register them. *)
Definition app_routes : list route :=
  [ Route ["POST"] [Lit "prompts"] EP_create_prompt;
    Route ["GET"] [Lit "prompts"; Param "prompt_id"] EP_get_prompt;
    Route ["GET"] [Lit "prompts"; Lit "search"] EP_search_prompts ].

Fixpoint segments_from (cur s : string) : list string :=
  match s with
  | EmptyString => [cur]
  | String c s' =>
      if decide (c = "/"%char) then cur :: segments_from "" s'
      else segments_from (cur +:+ String c "") s'
  end.

(** The segments of a path, which starts with a slash. *)
Definition path_segments (path : string) : option (list string) :=
  match path with
  | String c rest => if decide (c = "/"%char) then Some (segments_from "" rest) else None
  | EmptyString => None
  end.

(** A path parameter matches one non-empty segment. *)
Fixpoint match_path (tpl : list segment) (segs : list string)
  : option (list (string * string)) :=
  match tpl, segs with
  | [], [] => Some []
  | Lit s :: tpl', x :: segs' =>
      if decide (s = x) then match_path tpl' segs' else None
  | Param name :: tpl', x :: segs' =>
      if decide (x = "") then None
      else ps ← match_path tpl' segs'; Some ((name, x) :: ps)
  | _, _ => None
  end.

Inductive route_match :=
| MatchNone
| MatchPartial
| MatchFull (path_params : list (string * string)).

Definition route_matches (r : route) (method : string) (segs : list string) : route_match :=
  match match_path (rt_path r) segs with
  | None => MatchNone
  | Some ps => if bool_decide (method ∈ rt_methods r) then MatchFull ps else MatchPartial
  end.

Definition matched (m : route_match) : bool :=
  match m with MatchNone => false | _ => true end.

Inductive dispatch_result :=
| Dispatch (ep : endpoint) (path_params : list (string * string))
| MethodNotAllowed
| RedirectSlash
| NotFound.

(** The first route that matches path and method serves the request; a
    route that matches the path only is remembered for the 405. *)
Fixpoint first_match (rs : list route) (method : string) (segs : list string)
    (partial : bool) : option dispatch_result :=
  match rs with
  | [] => if partial then Some MethodNotAllowed else None
  | r :: rs' =>
      match route_matches r method segs with
      | MatchFull ps => Some (Dispatch (rt_endpoint r) ps)
      | MatchPartial => first_match rs' method segs true
      | MatchNone => first_match rs' method segs partial
      end
  end.

(** The same path with its trailing slash removed, or added. *)
Definition toggle_slash (segs : list string) : list string :=
  match reverse segs with
  | "" :: ((_ :: _) as r) => reverse r
  | _ => segs ++ [""]
  end.

Definition dispatch (rs : list route) (method path : string) : dispatch_result :=
  match path_segments path with
  | None => NotFound
  | Some segs =>
      match first_match rs method segs false with
      | Some d => d
      | None =>
          if bool_decide (segs ≠ [""]) &&
             existsb (λ r, matched (route_matches r method (toggle_slash segs))) rs
          then RedirectSlash else NotFound
      end
  end.

(** Validation of the request body against [PromptCreate]: [text] must be
    there and be a string; [source] and [tags] may be absent or null. The
    conversions some versions of the validator apply to other JSON types
    are left out, and so is the detail of the 422 body. *)
Definition opt_field {A} (d : record) (k : string) (read : value → option A)
  : option (option A) :=
  match assoc k d with
  | None | Some VNull => Some None
  | Some v => Some <$> read v
  end.

Definition as_str_list (v : value) : option (list string) :=
  match v with VList l => mapM as_str l | _ => None end.

Definition validate_PromptCreate (body : option value) : option PromptCreate :=
  match body with
  | Some (VDict d) =>
      text ← assoc "text" d ≫= as_str;
      source ← opt_field d "source" as_str;
      tags ← opt_field d "tags" as_str_list;
      Some {| pc_text := text; pc_source := source; pc_tags := tags |}
  | _ => None
  end.

Definition detail (msg : string) : value := VDict [("detail", VStr msg)].

Definition respond (o : handler_outcome * world) : response * world :=
  match o.1 with
  | Return v => (Response 200 v, o.2)
  | HTTPException code msg => (Response code (detail msg), o.2)
  | Raised _ => (Response 500 (VStr "Internal Server Error"), o.2)
  end.

Definition unprocessable : response := Response 422 (detail "Unprocessable Entity").

Section application.
Variable run : string → record → TxM (list record).

(** The framework calls an endpoint once the parameters it declares have
    been read from the request; a request that lacks one is answered
    with 422 and the endpoint body does not run. *)
Definition invoke (ep : endpoint) (path_params : list (string * string))
    (req : request) (ev : env) (w : world) : response * world :=
  match ep with
  | EP_create_prompt =>
      match validate_PromptCreate (req_body req) with
      | None => (unprocessable, w)
      | Some prompt => respond (create_prompt run prompt ev w)
      end
  | EP_get_prompt =>
      match assoc "prompt_id" path_params with
      | None => (unprocessable, w)
      | Some prompt_id => respond (get_prompt run prompt_id ev w)
      end
  | EP_search_prompts =>
      match assoc "q" (req_query req) with
      | None => (unprocessable, w)
      | Some q => respond (search_prompts run q ev w)
      end
  end.

Definition serve (req : request) (ev : env) (w : world) : response * world :=
  match dispatch app_routes (req_method req) (req_path req) with
  | Dispatch ep path_params => invoke ep path_params req ev w
  | MethodNotAllowed => (Response 405 (detail "Method Not Allowed"), w)
  | RedirectSlash => (Response 307 VNull, w)
  | NotFound => (Response 404 (detail "Not Found"), w)
  end.

(** The operations of the service, called in sequence. *)
Inductive op :=
| Create (prompt : PromptCreate)
| Get (prompt_id : string)
| Search (q : string).

Definition step (o : op) (ev : env) (w : world) : handler_outcome * world :=
  match o with
  | Create prompt => create_prompt run prompt ev w
  | Get prompt_id => get_prompt run prompt_id ev w
  | Search q => search_prompts run q ev w
  end.

Definition run_ops (l : list (op * env)) (w : world) : world :=
  foldl (λ w oe, (step oe.1 oe.2 w).2) w l.
End application.

(** ** What a run that meets no fault leaves behind

    The graph each clause produces when the connection stays up, as plain
    functions on graphs; the lemmas below show the clauses compute them. *)

Definition merge_node (l : label) (k v : string) (g : graph) : list node * graph :=
  match find_nodes l k v g with
  | [] => let ng := add_node l [(k, Some v)] g in ([ng.1], ng.2)
  | ms => (ms, g)
  end.

Definition merge_rel (a : node) (ty : string) (g : graph) (b : node) : graph :=
  let r := Rel (node_id a) ty (node_id b) in
  if has_rel r g then g else add_rel r g.

Definition link_tag (p : node) (g : graph) (tag : string) : graph :=
  let mg := merge_node Tag "name" tag g in
  foldl (merge_rel p "HAS_TAG") mg.2 mg.1.

Definition new_prompt (id text : string) (source : option string) (g : graph) : node * graph :=
  add_node Prompt [("id", Some id); ("text", Some text); ("source", source)] g.

Definition created (id text : string) (source : option string) (tags : list string)
    (g : graph) : graph :=
  let pg := new_prompt id text source g in
  foldl (link_tag pg.1) pg.2 tags.

Definition ensure_index (g : graph) : graph :=
  if has_index "promptTextIndex" g then g
  else add_index (FtIndex "promptTextIndex" Prompt "text") g.

(** The tag names a prompt node reaches over [HAS_TAG]. *)
Definition tags_of (p : node) (g : graph) : list string :=
  omap (λ n, prop n "name") (out_neighbours p "HAS_TAG" Tag g).

(** The row [RETURN p, collect(t.name) AS tags] gives for prompt node [p]. *)
Definition get_row (g : graph) (p : node) : record :=
  [("p", node_value p); ("tags", VList (VStr <$> tags_of p g))].

(** ** Invariants of the store *)

Definition tag_names (g : graph) : list string :=
  omap (λ n, if decide (node_label n = Tag) then prop n "name" else None) (g_nodes g).

(** No two Tag nodes carry the same name. *)
Definition tags_unique (g : graph) : Prop := NoDup (tag_names g).

(** Node identities are distinct and below the allocation counter, and
    relationships join allocated identities. *)
Definition graph_wf (g : graph) : Prop :=
  Forall (λ n, node_id n < g_next g) (g_nodes g) ∧
  NoDup (node_id <$> g_nodes g) ∧
  Forall (λ r, rel_src r < g_next g ∧ rel_dst r < g_next g) (g_rels g) ∧
  tags_unique g.

#[global] Instance graph_wf_dec g : Decision (graph_wf g).
Proof. unfold graph_wf, tags_unique. apply _. Defined.

(** The state of the store while the tags of prompt node [p] are being
    linked: [seen] are the tags handled so far. *)
Definition linking (p : node) (seen : list string) (g : graph) : Prop :=
  graph_wf g ∧ p ∈ g_nodes g ∧
  NoDup (tags_of p g) ∧ ∀ x, x ∈ tags_of p g ↔ x ∈ seen.

(** [g'] holds every node and relationship of [g]. *)
Definition graph_le (g g' : graph) : Prop :=
  g_nodes g ⊆ g_nodes g' ∧ g_rels g ⊆ g_rels g'.

(** Prompt node [p] carries tag [tag]: a Tag node of that name is the end
    of a [HAS_TAG] relationship from [p]. *)
Definition tagged (g : graph) (p : node) (tag : string) : Prop :=
  ∃ t, t ∈ g_nodes g ∧ node_matches Tag "name" tag t ∧
       Rel (node_id p) "HAS_TAG" (node_id t) ∈ g_rels g.

(** Every run of [m] that returns relates the graph it started from to
    the graph it leaves by [R]. *)
Definition tx_rel {A} (R : relation graph) (m : TxM A) : Prop :=
  ∀ s a s', m s = Done a s' → R (tx_work s) (tx_work s').

(** The graph is as it was, or as it was with the index ensured. *)
Definition index_ensured (g g' : graph) : Prop := g' = g ∨ g' = ensure_index g.

(** A computation is insensitive to faults when a run that survives its
    faults leaves what the fault-free run leaves. *)
Definition fault_insensitive {A} (m : TxM A) : Prop :=
  ∀ g b a s', m (TxState g b) = Done a s' →
    m (TxState g None) = Done a (TxState (tx_work s') None).

(** ** Reading the returned values *)


Definition hit_dict (h : node * Q) : value :=
  VDict [("id", prop_value h.1 "id"); ("text", prop_value h.1 "text");
         ("source", prop_value h.1 "source"); ("score", VFloat h.2)].

(** The rows [ORDER BY score DESC LIMIT 10] keeps. *)
Definition ranked (matches : list (node * Q)) : list (node * Q) :=
  cy_limit 10 (cy_order_by_score_desc matches).


(** What the engine finds for a parsed query in the graph [g], through the
    index [ix]. *)
Definition matches_of (E : engine) (lq : lquery E) (ix : ft_index) (g : graph)
  : list (node * Q) :=
  scored E lq ix (indexed_nodes ix g).




(** The part of [_search_prompts] that follows the index bootstrap. *)
Definition query_and_collect (run : string → record → TxM (list record))
    (query_string : string) : TxM value :=
  result ← run search_query [("q", VStr query_string)];
  hits ← mapM search_hit result;
  mret (VList hits).

(** ** Engines and transactions used as concrete instances *)

(** An engine whose query language has no empty query, and which scores a
    text by how early the query occurs in it. *)
Definition substring_engine : engine := {|
  lquery := string;
  parse_query q := if decide (q = "") then None else Some q;
  relevance q corpus t :=
    match String.index 0 q t with
    | Some i => Some (1 # Pos.of_succ_nat i)
    | None => None
    end
|}.

(** A transaction whose statements yield no record. *)
Definition silent_run (query : string) (params : record) : TxM (list record) := mret [].

Definition fresh_world : world := World empty_graph 0 0.


(** ** Connection settings

    [get_driver] reads three variables of the environment, each with a
    default. [os.getenv] gives the default only for a variable that is not
    set: one set to the empty string yields the empty string. *)

Record driver_config := DriverConfig {
  dc_uri : string;
  dc_user : string;
  dc_password : string
}.

Definition getenv (environ : list (string * string)) (key fallback : string) : string :=
  default fallback (assoc key environ).

Definition get_driver (environ : list (string * string)) : driver_config :=
  let uri := getenv environ "NEO4J_URI" "bolt://localhost:7687" in
  let user := getenv environ "NEO4J_USER" "neo4j" in
  let password := getenv environ "NEO4J_PASSWORD" "password" in
  DriverConfig uri user password.

(** ** Requests in sequence *)

Definition serve_all (run : string → record → TxM (list record))
    (reqs : list (request * env)) (w : world) : world :=
  foldl (λ w re, (serve run re.1 re.2 w).2) w reqs.

(** The request of the usage example: a JSON body with the three fields. *)
Definition create_body (text : string) (source : option string) (tags : list string)
  : value :=
  VDict [("text", VStr text); ("source", of_option source);
         ("tags", VList (VStr <$> tags))].

Fixpoint has_slash (s : string) : bool :=
  match s with
  | EmptyString => false
  | String c s' => bool_decide (c = "/"%char) || has_slash s'
  end.

(** ** More invariants of the store *)

(** The nodes carry the properties the service reads: a Prompt its [id]
    and [text], a Tag its [name]. *)
Definition node_ok (n : node) : Prop :=
  match node_label n with
  | Prompt => is_Some (prop n "id") ∧ is_Some (prop n "text")
  | Tag => is_Some (prop n "name")
  end.

Definition schema_ok (g : graph) : Prop := Forall node_ok (g_nodes g).

(** Every relationship is a [HAS_TAG] from a Prompt node to a Tag node. *)
Definition rel_ok (g : graph) (r : rel) : Prop :=
  rel_type r = "HAS_TAG" ∧
  (∃ p, p ∈ g_nodes g ∧ node_id p = rel_src r ∧ node_label p = Prompt) ∧
  (∃ t, t ∈ g_nodes g ∧ node_id t = rel_dst r ∧ node_label t = Tag).

Definition rels_typed (g : graph) : Prop := Forall (rel_ok g) (g_rels g).


(** The identifiers of the Prompt nodes, and those drawn by the create
    operations of a sequence. *)
Definition prompt_ids (g : graph) : list string :=
  omap (λ n, if decide (node_label n = Prompt) then prop n "id" else None) (g_nodes g).

Definition issued (ops : list (op * env)) : list string :=
  omap (λ oe, match oe.1 with Create _ => Some (e_uuid oe.2) | _ => None end) ops.

(** What [_get_prompt] makes of the node it found. *)
Definition prompt_record (g : graph) (p : node) : error + value :=
  match prop p "id", prop p "text" with
  | Some id, Some text =>
      inr (VDict [("id", VStr id); ("text", VStr text);
                  ("source", prop_value p "source");
                  ("tags", VList (VStr <$> tags_of p g))])
  | None, _ => inl (KeyError "id")
  | _, None => inl (KeyError "text")
  end.

(** A run that fails under faults fails on the lost connection, or as the
    fault-free run fails. *)
Definition fault_or_same {A} (m : TxM A) : Prop :=
  ∀ g b e s', m (TxState g b) = Failed e s' →
    e = ServiceUnavailable ∨ ∃ s'', m (TxState g None) = Failed e s''.

(** The same operation with the connection up. *)
Definition no_fault (ev : env) : env := Env (e_uuid ev) None.

(** The counters apart, the committed graph is what the worlds differ in. *)
Definition counted (w : world) (g : graph) : world :=
  World g (S (w_sessions w)) (S (w_transactions w)).

(** * Properties *)

(** ** Fault-free runs of the clauses *)

Lemma bind_Done {A B} (m : TxM A) (f : A → TxM B) s a s' :
  m s = Done a s' → (m ≫= f) s = f a s'.
Proof. intros H. unfold mbind, TxM_bind. by rewrite H. Qed.

Lemma bind_Failed {A B} (m : TxM A) (f : A → TxM B) s e s' :
  m s = Failed e s' → (m ≫= f) s = Failed e s'.
Proof. intros H. unfold mbind, TxM_bind. by rewrite H. Qed.

Lemma bind_inv {A B} (m : TxM A) (f : A → TxM B) s b s' :
  (m ≫= f) s = Done b s' → ∃ a s1, m s = Done a s1 ∧ f a s1 = Done b s'.
Proof.
  unfold mbind, TxM_bind. destruct (m s) as [a s1|e s1]; [eauto | discriminate].
Qed.

Lemma cy_create_ok l m g :
  cy_create l m (TxState g None)
  = Done (add_node l m g).1 (TxState (add_node l m g).2 None).
Proof. reflexivity. Qed.

Lemma cy_match_ok l k v g :
  cy_match l k v (TxState g None) = Done (find_nodes l k v g) (TxState g None).
Proof. reflexivity. Qed.

Lemma cy_merge_node_ok l k v g :
  cy_merge_node l k v (TxState g None)
  = Done (merge_node l k v g).1 (TxState (merge_node l k v g).2 None).
Proof.
  unfold cy_merge_node, merge_node.
  rewrite (bind_Done _ _ _ _ _ (cy_match_ok l k v g)).
  destruct (find_nodes l k v g); [|done].
  by rewrite (bind_Done _ _ _ _ _ (cy_create_ok _ _ _)).
Qed.

Lemma cy_merge_rel_ok a ty b g :
  cy_merge_rel a ty b (TxState g None) = Done () (TxState (merge_rel a ty g b) None).
Proof.
  unfold cy_merge_rel, merge_rel, mbind, TxM_bind, tick, get_graph.
  cbn [tx_budget tx_work]. by destruct (has_rel _ g).
Qed.

Lemma cy_foreach_ok {A} (body : A → TxM unit) (f : graph → A → graph) l g :
  (∀ x g, body x (TxState g None) = Done () (TxState (f g x) None)) →
  cy_foreach l body (TxState g None) = Done () (TxState (foldl f g l) None).
Proof.
  intros Hbody. revert g. induction l as [|x l IH]; intros g; [done|].
  cbn [cy_foreach foldl]. rewrite (bind_Done _ _ _ _ _ (Hbody x g)). apply IH.
Qed.

Lemma mapM_as_str l : mapM as_str (VStr <$> l) = Some l.
Proof. induction l as [|x l IH]; [done|]. cbn. rewrite IH. done. Qed.

Lemma cypher_create_ok id text source tags g :
  cypher_create id text source tags (TxState g None)
  = Done [[("id", VStr id)]] (TxState (created id text source tags g) None).
Proof.
  unfold cypher_create, created, new_prompt.
  rewrite (bind_Done _ _ _ _ _ (cy_create_ok _ _ _)).
  set (p := (add_node _ _ g).1). set (g0 := (add_node _ _ g).2).
  erewrite bind_Done; [reflexivity|].
  apply cy_foreach_ok. intros tag g1. unfold link_tag.
  rewrite (bind_Done _ _ _ _ _ (cy_merge_node_ok _ _ _ _)).
  apply cy_foreach_ok. intros t g2. apply cy_merge_rel_ok.
Qed.

Lemma neo4j_run_create E id text source tags s :
  neo4j_run E create_query
    [("id", VStr id); ("text", VStr text); ("source", of_option source);
     ("tags", VList (VStr <$> tags))] s
  = cypher_create id text source tags s.
Proof.
  unfold neo4j_run. destruct (decide (create_query = create_query)); [|done].
  unfold param_str_list, param_str, param_opt_str. cbn [assoc].
  repeat (destruct (decide _) as [?|?]; try discriminate; try done).
  cbn. rewrite mapM_as_str. by destruct source.
Qed.

(** ** Faults do not change what a surviving run computes *)

Lemma fi_ret {A} (a : A) : fault_insensitive (mret a).
Proof. intros g b a' s' H. injection H as <- <-. done. Qed.

Lemma fi_raise {A} e : fault_insensitive (@raise A e).
Proof. intros g b a s' H. discriminate. Qed.

Lemma fi_tick : fault_insensitive tick.
Proof.
  intros g b a s'. unfold tick. cbn.
  destruct b as [[|k]|]; intros H; try discriminate; by injection H as <- <-.
Qed.

Lemma fi_get_graph : fault_insensitive get_graph.
Proof. intros g b a s' H. injection H as <- <-. done. Qed.

Lemma fi_put_graph g0 : fault_insensitive (put_graph g0).
Proof. intros g b a s' H. injection H as <- <-. done. Qed.

Lemma fi_bind {A B} (m : TxM A) (f : A → TxM B) :
  fault_insensitive m → (∀ a, fault_insensitive (f a)) →
  fault_insensitive (m ≫= f).
Proof.
  intros Hm Hf g b r s' H.
  apply bind_inv in H as (a & [g1 b1] & H1 & H2).
  rewrite (bind_Done _ _ _ _ _ (Hm _ _ _ _ H1)).
  exact (Hf _ _ _ _ _ H2).
Qed.

Lemma fi_foreach {A} (l : list A) body :
  (∀ x, fault_insensitive (body x)) → fault_insensitive (cy_foreach l body).
Proof.
  intros Hb. induction l as [|x l IH]; cbn [cy_foreach].
  - apply fi_ret.
  - apply fi_bind; [apply Hb | intros _; apply IH].
Qed.

Lemma fi_mapM {A B} (f : A → TxM B) (l : list A) :
  (∀ x, fault_insensitive (f x)) → fault_insensitive (mapM f l).
Proof.
  intros Hf. induction l as [|x l IH]; cbn [mapM].
  - apply fi_ret.
  - apply fi_bind; [apply Hf | intros y].
    apply fi_bind; [apply IH | intros k; apply fi_ret].
Qed.

Create HintDb fi discriminated.

Ltac fi_solve :=
  repeat match goal with
    | |- fault_insensitive (mret _) => apply fi_ret
    | |- fault_insensitive (raise _) => apply fi_raise
    | |- fault_insensitive tick => apply fi_tick
    | |- fault_insensitive get_graph => apply fi_get_graph
    | |- fault_insensitive (put_graph _) => apply fi_put_graph
    | |- fault_insensitive (_ ≫= _) => apply fi_bind; [|intros ?]
    | |- fault_insensitive (cy_foreach _ _) => apply fi_foreach; intros ?
    | |- fault_insensitive (mapM _ _) => apply fi_mapM; intros ?
    | |- fault_insensitive (match ?x with _ => _ end) => destruct x
    | |- fault_insensitive _ => solve [auto with fi nocore]
    end.

Lemma fi_cy_create l m : fault_insensitive (cy_create l m).
Proof. unfold cy_create. fi_solve. Qed.

Lemma fi_cy_match l k v : fault_insensitive (cy_match l k v).
Proof. unfold cy_match. fi_solve. Qed.

#[local] Hint Resolve fi_cy_create fi_cy_match : fi.

Lemma fi_cy_merge_node l k v : fault_insensitive (cy_merge_node l k v).
Proof.
  unfold cy_merge_node. fi_solve.
Qed.

Lemma fi_cy_merge_rel a ty b : fault_insensitive (cy_merge_rel a ty b).
Proof. unfold cy_merge_rel. fi_solve. Qed.

#[local] Hint Resolve fi_cy_merge_node fi_cy_merge_rel : fi.

Lemma fi_cypher_create id text source tags :
  fault_insensitive (cypher_create id text source tags).
Proof.
  unfold cypher_create. fi_solve.
Qed.

Lemma fi_cypher_get id : fault_insensitive (cypher_get id).
Proof.
  unfold cypher_get. fi_solve. unfold cy_optional_match_out. fi_solve.
Qed.

Lemma fi_cypher_index : fault_insensitive cypher_index.
Proof. unfold cypher_index, cy_create_fulltext_index. fi_solve. Qed.

Lemma fi_cypher_search E q : fault_insensitive (cypher_search E q).
Proof. unfold cypher_search, cy_fulltext_query. fi_solve. Qed.

#[local] Hint Resolve fi_cypher_create fi_cypher_get fi_cypher_index fi_cypher_search : fi.

Lemma fi_neo4j_run E query params : fault_insensitive (neo4j_run E query params).
Proof.
  unfold neo4j_run, param_str, param_opt_str, param_str_list.
  repeat case_decide; fi_solve.
Qed.

Section fault_insensitive_functions.
Variable run : string → record → TxM (list record).
Hypothesis fi_run : ∀ query params, fault_insensitive (run query params).

Lemma fi_getitem r key : fault_insensitive (getitem r key).
Proof. unfold getitem. fi_solve. Qed.

Lemma fi_create_prompt prompt_id text source tags :
  fault_insensitive (_create_prompt run prompt_id text source tags).
Proof.
  unfold _create_prompt, single. apply fi_bind; [apply fi_run | intros result].
  destruct (head result) as [[|]|]; fi_solve. apply fi_getitem.
Qed.

Lemma fi_get_prompt prompt_id : fault_insensitive (_get_prompt run prompt_id).
Proof.
  unfold _get_prompt, single. apply fi_bind; [apply fi_run | intros result].
  destruct (head result) as [[|]|]; try apply fi_ret.
  unfold node_getitem, node_get, getitem. fi_solve.
Qed.

Lemma fi_search_prompts q : fault_insensitive (_search_prompts run q).
Proof.
  unfold _search_prompts. apply fi_bind; [apply fi_run | intros _].
  apply fi_bind; [apply fi_run | intros result].
  apply fi_bind; [|intros; apply fi_ret].
  apply fi_mapM. intros r. unfold search_hit, getitem. fi_solve.
Qed.
End fault_insensitive_functions.

(** A managed transaction either fails and leaves the committed graph
    alone, or does exactly what its fault-free run does. *)
Lemma run_transaction_cases {A} (work : TxM A) fault w :
  fault_insensitive work →
  (∃ e, run_transaction work fault w
        = (inl e, World (w_db w) (w_sessions w) (S (w_transactions w))))
  ∨ (∃ a g', work (TxState (w_db w) None) = Done a (TxState g' None) ∧
       run_transaction work fault w
       = (inr a, World g' (w_sessions w) (S (w_transactions w)))).
Proof.
  intros Hfi. unfold run_transaction.
  destruct (work (TxState (w_db w) fault)) as [a [g' b']|e s] eqn:Hw; [|eauto].
  apply Hfi in Hw. cbn in Hw. unfold tick. cbn.
  destruct b' as [[|k]|]; eauto.
Qed.

Lemma run_transaction_no_fault {A} (work : TxM A) w a g' :
  work (TxState (w_db w) None) = Done a (TxState g' None) →
  run_transaction work None w
  = (inr a, World g' (w_sessions w) (S (w_transactions w))).
Proof. intros H. unfold run_transaction. by rewrite H. Qed.

(** ** Growth of the graph under the write clauses *)

#[global] Instance graph_le_refl : Reflexive graph_le.
Proof. intros g. by split. Qed.

#[global] Instance graph_le_trans : Transitive graph_le.
Proof. intros g1 g2 g3 [? ?] [? ?]. split; set_solver. Qed.

Lemma add_node_le l m g : graph_le g (add_node l m g).2.
Proof. split; cbn; set_solver. Qed.

Lemma add_node_elem l m g : (add_node l m g).1 ∈ g_nodes (add_node l m g).2.
Proof. cbn. set_solver. Qed.

Lemma merge_rel_nodes a ty g b : g_nodes (merge_rel a ty g b) = g_nodes g.
Proof. unfold merge_rel. by destruct (has_rel _ g). Qed.

Lemma merge_rel_next a ty g b : g_next (merge_rel a ty g b) = g_next g.
Proof. unfold merge_rel. by destruct (has_rel _ g). Qed.

Lemma merge_rel_indexes a ty g b : g_indexes (merge_rel a ty g b) = g_indexes g.
Proof. unfold merge_rel. by destruct (has_rel _ g). Qed.

Lemma merge_rel_le a ty g b : graph_le g (merge_rel a ty g b).
Proof.
  unfold merge_rel. destruct (has_rel _ g); [done|]. split; cbn; set_solver.
Qed.

Lemma merge_rel_elem a ty g b :
  Rel (node_id a) ty (node_id b) ∈ g_rels (merge_rel a ty g b).
Proof.
  unfold merge_rel, has_rel. case_bool_decide; [done|]. cbn. set_solver.
Qed.

Lemma foldl_merge_rel_nodes a ty ts g :
  g_nodes (foldl (merge_rel a ty) g ts) = g_nodes g.
Proof.
  revert g. induction ts as [|t ts IH]; intros g; [done|].
  cbn. by rewrite IH, merge_rel_nodes.
Qed.

Lemma foldl_merge_rel_le a ty ts g : graph_le g (foldl (merge_rel a ty) g ts).
Proof.
  revert g. induction ts as [|t ts IH]; intros g; [done|].
  cbn. etrans; [apply merge_rel_le | apply IH].
Qed.

Lemma foldl_merge_rel_elem a ty ts g t :
  t ∈ ts → Rel (node_id a) ty (node_id t) ∈ g_rels (foldl (merge_rel a ty) g ts).
Proof.
  revert g. induction ts as [|t' ts IH]; intros g Ht; [by apply elem_of_nil in Ht|].
  cbn. apply elem_of_cons in Ht as [->|Ht]; [|by apply IH].
  apply (foldl_merge_rel_le a ty ts), merge_rel_elem.
Qed.

Lemma merge_node_le l k v g : graph_le g (merge_node l k v g).2.
Proof.
  unfold merge_node. destruct (find_nodes l k v g); [apply add_node_le | done].
Qed.

Lemma merge_node_rels l k v g : g_rels (merge_node l k v g).2 = g_rels g.
Proof. unfold merge_node. by destruct (find_nodes l k v g). Qed.

Lemma find_nodes_elem l k v g n :
  n ∈ find_nodes l k v g ↔ n ∈ g_nodes g ∧ node_matches l k v n.
Proof. unfold find_nodes. rewrite list_elem_of_filter. tauto. Qed.

(** [MERGE] always binds at least one node, each in the graph and with the
    label and the property asked for. *)
Lemma merge_node_bound l k v g :
  (merge_node l k v g).1 ≠ [] ∧
  ∀ t, t ∈ (merge_node l k v g).1 →
       t ∈ g_nodes (merge_node l k v g).2 ∧ node_matches l k v t.
Proof.
  unfold merge_node. destruct (find_nodes l k v g) as [|n ms] eqn:Hf.
  - split; [done|]. intros t Ht. apply list_elem_of_singleton in Ht as ->.
    split; [apply add_node_elem|]. split; [done|].
    unfold prop. cbn. by rewrite decide_True.
  - split; [done|]. intros t Ht. rewrite <- Hf in Ht.
    by apply find_nodes_elem in Ht.
Qed.

Lemma link_tag_le p g tag : graph_le g (link_tag p g tag).
Proof.
  unfold link_tag. etrans; [apply merge_node_le | apply foldl_merge_rel_le].
Qed.

Lemma link_tag_tagged p g tag : tagged (link_tag p g tag) p tag.
Proof.
  unfold link_tag, tagged.
  destruct (merge_node_bound Tag "name" tag g) as [Hne Hts].
  destruct (merge_node Tag "name" tag g) as [[|t ts] g1]; [done|]. cbn [fst snd] in *.
  exists t. destruct (Hts t) as [Ht Hm]; [by apply elem_of_cons; left|].
  split_and!; [|done|].
  - by rewrite foldl_merge_rel_nodes.
  - apply foldl_merge_rel_elem, elem_of_cons. by left.
Qed.

Lemma tagged_le g g' p tag : graph_le g g' → tagged g p tag → tagged g' p tag.
Proof. intros [Hn Hr] (t & ? & ? & ?). exists t. set_solver. Qed.

Lemma foldl_link_tag_le p tags g : graph_le g (foldl (link_tag p) g tags).
Proof.
  revert g. induction tags as [|tag tags IH]; intros g; [done|].
  cbn. etrans; [apply link_tag_le | apply IH].
Qed.

Lemma foldl_link_tag_tagged p tags g tag :
  tag ∈ tags → tagged (foldl (link_tag p) g tags) p tag.
Proof.
  revert g. induction tags as [|tag' tags IH]; intros g Ht; [by apply elem_of_nil in Ht|].
  cbn. apply elem_of_cons in Ht as [->|Ht]; [|by apply IH].
  eapply tagged_le; [apply foldl_link_tag_le | apply link_tag_tagged].
Qed.

Lemma created_le id text source tags g : graph_le g (created id text source tags g).
Proof.
  unfold created. etrans; [apply add_node_le | apply foldl_link_tag_le].
Qed.

(** The write is complete: the Prompt node is there, and so are a Tag node
    and a [HAS_TAG] relationship for every tag of the input. *)
Lemma created_complete id text source tags g :
  let p := (new_prompt id text source g).1 in
  p ∈ g_nodes (created id text source tags g) ∧
  ∀ tag, tag ∈ tags → tagged (created id text source tags g) p tag.
Proof.
  cbn zeta. split.
  - apply (foldl_link_tag_le _ tags (new_prompt id text source g).2), add_node_elem.
  - intros tag Ht. by apply foldl_link_tag_tagged.
Qed.

(** ** Tag names stay unique *)

Lemma tag_names_app g n :
  omap (λ n, if decide (node_label n = Tag) then prop n "name" else None)
       (g_nodes g ++ [n])
  = tag_names g ++ (if decide (node_label n = Tag)
                    then option_list (prop n "name") else []).
Proof.
  unfold tag_names. rewrite omap_app. f_equal. cbn.
  case_decide; [|done]. by destruct (prop n "name").
Qed.

Lemma tag_names_new_prompt id text source g :
  tag_names (new_prompt id text source g).2 = tag_names g.
Proof.
  unfold new_prompt, add_node. cbn [snd]. unfold tag_names at 1. cbn [g_nodes].
  rewrite tag_names_app. cbn. by rewrite app_nil_r.
Qed.

Lemma find_nodes_nil_tag_names v g :
  find_nodes Tag "name" v g = [] → v ∉ tag_names g.
Proof.
  intros Hf Hin. unfold tag_names in Hin.
  apply list_elem_of_omap in Hin as (n & Hn & Hp).
  case_decide; [|done].
  assert (n ∈ find_nodes Tag "name" v g) as Hc by by apply find_nodes_elem.
  rewrite Hf in Hc. by apply elem_of_nil in Hc.
Qed.

Lemma merge_node_tags_unique v g :
  tags_unique g → tags_unique (merge_node Tag "name" v g).2.
Proof.
  unfold tags_unique, merge_node. intros Hu.
  destruct (find_nodes Tag "name" v g) eqn:Hf; [|done].
  cbn [snd add_node]. unfold tag_names at 1. cbn [g_nodes].
  rewrite tag_names_app. cbn.
  apply NoDup_app. split_and!; [done| |apply NoDup_singleton].
  intros x Hx Hx'. apply list_elem_of_singleton in Hx' as ->.
  by apply find_nodes_nil_tag_names in Hf.
Qed.

Lemma link_tag_tags_unique p g tag : tags_unique g → tags_unique (link_tag p g tag).
Proof.
  intros Hu. unfold link_tag, tags_unique, tag_names.
  rewrite foldl_merge_rel_nodes. by apply merge_node_tags_unique.
Qed.

Lemma created_tags_unique id text source tags g :
  tags_unique g → tags_unique (created id text source tags g).
Proof.
  intros Hu. unfold created.
  assert (tags_unique (new_prompt id text source g).2) as H0.
  { unfold tags_unique. by rewrite tag_names_new_prompt. }
  revert H0. generalize (new_prompt id text source g).2.
  induction tags as [|tag tags IH]; intros g0 H0; [done|].
  cbn. by apply IH, link_tag_tags_unique.
Qed.

Lemma ensure_index_nodes g : g_nodes (ensure_index g) = g_nodes g.
Proof. unfold ensure_index. by destruct (has_index _ g). Qed.

Lemma ensure_index_tags_unique g : tags_unique g → tags_unique (ensure_index g).
Proof. unfold tags_unique, tag_names. by rewrite ensure_index_nodes. Qed.

Lemma find_nodes_length g v :
  tags_unique g → length (find_nodes Tag "name" v g) ≤ 1.
Proof.
  unfold tags_unique, tag_names, find_nodes.
  induction (g_nodes g) as [|n ns IH]; intros Hu; [cbn; lia|].
  rewrite filter_cons. cbn [omap list_omap] in Hu.
  destruct (decide (node_matches Tag "name" v n)) as [[Hl Hp]|Hn].
  - rewrite decide_True, Hp in Hu by done.
    apply NoDup_cons in Hu as [Hv _].
    destruct (filter _ ns) as [|y ys] eqn:Hf; [cbn; lia|].
    exfalso. apply Hv.
    assert (y ∈ filter (node_matches Tag "name" v) ns) as Hy
      by (rewrite Hf; apply elem_of_cons; by left).
    apply list_elem_of_filter in Hy as [[Hly Hpy] Hy].
    apply list_elem_of_omap. exists y. split; [done|]. by rewrite decide_True.
  - apply IH. destruct (decide (node_label n = Tag)); [|done].
    destruct (prop n "name"); [|done]. by apply NoDup_cons in Hu as [_ ?].
Qed.

Lemma find_nodes_unique g v t :
  tags_unique g → t ∈ g_nodes g → node_matches Tag "name" v t →
  find_nodes Tag "name" v g = [t].
Proof.
  intros Hu Ht Hm. pose proof (find_nodes_length g v Hu) as Hlen.
  assert (t ∈ find_nodes Tag "name" v g) as Hin by by apply find_nodes_elem.
  destruct (find_nodes Tag "name" v g) as [|x [|y l]]; cbn in Hlen; [|..|lia].
  - by apply elem_of_nil in Hin.
  - by apply list_elem_of_singleton in Hin as ->.
Qed.

(** Two Tag nodes of one name are one node. *)
Lemma tags_unique_same g t1 t2 v :
  tags_unique g →
  t1 ∈ g_nodes g → node_matches Tag "name" v t1 →
  t2 ∈ g_nodes g → node_matches Tag "name" v t2 →
  t1 = t2.
Proof.
  intros Hu H1 Hm1 H2 Hm2.
  pose proof (find_nodes_unique g v t1 Hu H1 Hm1) as E1.
  pose proof (find_nodes_unique g v t2 Hu H2 Hm2) as E2.
  congruence.
Qed.

(** ** The endpoints, case by case *)

Lemma _create_prompt_ok E id text source tags g :
  _create_prompt (neo4j_run E) id text source tags (TxState g None)
  = Done (VStr id) (TxState (created id text source tags g) None).
Proof.
  unfold _create_prompt.
  erewrite bind_Done; [|rewrite neo4j_run_create; apply cypher_create_ok].
  reflexivity.
Qed.

Lemma create_prompt_cases E prompt ev w :
  let g' := created (e_uuid ev) (pc_text prompt) (pc_source prompt)
                    (or_empty (pc_tags prompt)) (w_db w) in
  (∃ e, create_prompt (neo4j_run E) prompt ev w
        = (Raised e, World (w_db w) (S (w_sessions w)) (S (w_transactions w))))
  ∨ create_prompt (neo4j_run E) prompt ev w
    = (Return (VDict [("id", VStr (e_uuid ev))]),
       World g' (S (w_sessions w)) (S (w_transactions w))).
Proof.
  intros g'. unfold create_prompt, write_transaction.
  destruct (run_transaction_cases
              (_create_prompt (neo4j_run E) (e_uuid ev) (pc_text prompt)
                 (pc_source prompt) (or_empty (pc_tags prompt)))
              (e_fault ev) (open_session w)) as [[e He]|(a & g1 & Hok & Hr)].
  - apply fi_create_prompt, fi_neo4j_run.
  - left. exists e. by rewrite He.
  - right. rewrite Hr. cbn [open_session w_db] in Hok.
    rewrite _create_prompt_ok in Hok. by injection Hok as <- <-.
Qed.

Lemma create_prompt_no_fault E prompt uuid w :
  create_prompt (neo4j_run E) prompt (Env uuid None) w
  = (Return (VDict [("id", VStr uuid)]),
     World (created uuid (pc_text prompt) (pc_source prompt)
              (or_empty (pc_tags prompt)) (w_db w))
           (S (w_sessions w)) (S (w_transactions w))).
Proof.
  unfold create_prompt, write_transaction. cbn [e_uuid e_fault].
  erewrite run_transaction_no_fault; [|apply _create_prompt_ok]. reflexivity.
Qed.

(** What a read returns depends on the committed graph only. *)
Lemma get_prompt_db run id ev w1 w2 :
  w_db w1 = w_db w2 → (get_prompt run id ev w1).1 = (get_prompt run id ev w2).1.
Proof.
  intros H. unfold get_prompt, read_transaction, run_transaction, open_session.
  cbn [w_db]. rewrite H.
  destruct (_get_prompt _ id _) as [a s|e s]; [|done].
  destruct (tick s); [|done]. cbn. by destruct (truthy a).
Qed.

Lemma search_prompts_db run q ev w1 w2 :
  w_db w1 = w_db w2 → (search_prompts run q ev w1).1 = (search_prompts run q ev w2).1.
Proof.
  intros H. unfold search_prompts, read_transaction, run_transaction, open_session.
  cbn [w_db]. rewrite H.
  destruct (_search_prompts _ q _) as [a s|e s]; [|done].
  by destruct (tick s).
Qed.

(** A fault in the middle of the statement leaves a partial write in the
    working copy; the roll-back drops it. *)
Example partial_write_discarded :
  let prompt := {| pc_text := "a"; pc_source := None; pc_tags := Some ["x"; "y"] |} in
  (∃ s, cypher_create "u" "a" None ["x"; "y"] (TxState empty_graph (Some 3))
        = Failed ServiceUnavailable s ∧
        length (g_nodes (tx_work s)) = 2 ∧ g_rels (tx_work s) = []) ∧
  create_prompt (neo4j_run substring_engine) prompt (Env "u" (Some 3)) fresh_world
  = (Raised ServiceUnavailable, World empty_graph 1 1).
Proof. cbn zeta. split; [eexists; split; [reflexivity|done]|]. by vm_compute. Qed.

(** C6 (write atomicity). A create call either returns the identifier with
    the whole write committed (the Prompt node, and for every tag a Tag
    node and a HAS_TAG relationship from the prompt), or fails with the
    committed graph exactly as it was, so that every later read answers as
    before the attempt; the failure reaches the caller as a raised error.
    This holds wherever the connection is lost, commit included. *)
Theorem create_is_atomic E prompt ev w :
  let run := neo4j_run E in
  let r := create_prompt run prompt ev w in
  let tags := or_empty (pc_tags prompt) in
  let p := (new_prompt (e_uuid ev) (pc_text prompt) (pc_source prompt) (w_db w)).1 in
  (r.1 = Return (VDict [("id", VStr (e_uuid ev))]) ∧
   graph_le (w_db w) (w_db r.2) ∧
   p ∈ g_nodes (w_db r.2) ∧
   ∀ tag, tag ∈ tags → tagged (w_db r.2) p tag)
  ∨
  (∃ e, r.1 = Raised e ∧
   w_db r.2 = w_db w ∧
   (∀ id ev', (get_prompt run id ev' r.2).1 = (get_prompt run id ev' w).1) ∧
   (∀ q ev', (search_prompts run q ev' r.2).1 = (search_prompts run q ev' w).1)).
Proof.
  cbn zeta. destruct (create_prompt_cases E prompt ev w) as [[e ->]| ->]; cbn [fst snd w_db].
  - right. exists e. split_and!; [done|done|..].
    + intros. by apply get_prompt_db.
    + intros. by apply search_prompts_db.
  - left. split_and!; [done|apply created_le|..]; apply created_complete.
Qed.

(** ** What reads and the index bootstrap may change *)

Section tx_rel.
Context (R : relation graph) `{!PreOrder R}.

Lemma txr_ret {A} (a : A) : tx_rel R (mret a).
Proof. intros s a' s' H. injection H as <- <-. done. Qed.

Lemma txr_raise {A} e : tx_rel R (@raise A e).
Proof. intros s a s' H. discriminate. Qed.

Lemma txr_tick : tx_rel R tick.
Proof.
  intros [g b] a s'. unfold tick. cbn.
  destruct b as [[|k]|]; intros H; try discriminate; by injection H as <- <-.
Qed.

Lemma txr_get_graph : tx_rel R get_graph.
Proof. intros s a s' H. injection H as <- <-. done. Qed.

Lemma txr_bind {A B} (m : TxM A) (f : A → TxM B) :
  tx_rel R m → (∀ a, tx_rel R (f a)) → tx_rel R (m ≫= f).
Proof.
  intros Hm Hf s b s' H. apply bind_inv in H as (a & s1 & H1 & H2).
  etrans; [exact (Hm _ _ _ H1) | exact (Hf _ _ _ _ H2)].
Qed.

Lemma txr_mapM {A B} (f : A → TxM B) (l : list A) :
  (∀ x, tx_rel R (f x)) → tx_rel R (mapM f l).
Proof.
  intros Hf. induction l as [|x l IH]; cbn [mapM].
  - apply txr_ret.
  - apply txr_bind; [apply Hf | intros y].
    apply txr_bind; [apply IH | intros k; apply txr_ret].
Qed.
End tx_rel.

Ltac txr_solve :=
  repeat match goal with
    | |- tx_rel _ (mret _) => apply txr_ret; try apply _
    | |- tx_rel _ (raise _) => apply txr_raise
    | |- tx_rel _ tick => apply txr_tick; try apply _
    | |- tx_rel _ get_graph => apply txr_get_graph; try apply _
    | |- tx_rel _ (_ ≫= _) => apply txr_bind; [try apply _| |intros ?]
    | |- tx_rel _ (mapM _ _) => apply txr_mapM; [try apply _|intros ?]
    | |- tx_rel _ (match ?x with _ => _ end) => destruct x
    end.

Lemma has_index_add ix g : has_index (ix_name ix) (add_index ix g) = true.
Proof.
  unfold has_index, add_index. cbn. apply bool_decide_eq_true.
  rewrite map_app. apply elem_of_app. right. cbn. apply elem_of_cons. by left.
Qed.

Lemma has_index_ensure g : has_index "promptTextIndex" (ensure_index g) = true.
Proof.
  unfold ensure_index. destruct (has_index _ g) eqn:H; [done|].
  apply (has_index_add (FtIndex "promptTextIndex" Prompt "text")).
Qed.

Lemma ensure_index_idem g : ensure_index (ensure_index g) = ensure_index g.
Proof. unfold ensure_index at 1. by rewrite has_index_ensure. Qed.

#[global] Instance index_ensured_preorder : PreOrder index_ensured.
Proof.
  split.
  - intros g. by left.
  - intros g1 g2 g3 [->| ->] [->| ->]; unfold index_ensured; auto.
    right. apply ensure_index_idem.
Qed.

Lemma tx_rel_eq_index_ensured {A} (m : TxM A) : tx_rel eq m → tx_rel index_ensured m.
Proof. intros H s a s' Hm. left. symmetry. by eapply H. Qed.

Lemma neo4j_run_get E params :
  neo4j_run E get_query params = (param_str params "id" ≫= cypher_get).
Proof. reflexivity. Qed.

Lemma neo4j_run_index E params : neo4j_run E index_query params = cypher_index.
Proof. reflexivity. Qed.

Lemma neo4j_run_search E params :
  neo4j_run E search_query params = (param_str params "q" ≫= cypher_search E).
Proof. reflexivity. Qed.

Lemma txr_cypher_get id : tx_rel eq (cypher_get id).
Proof.
  unfold cypher_get, cy_match, cy_optional_match_out. txr_solve.
Qed.

Lemma txr_cypher_search E q : tx_rel eq (cypher_search E q).
Proof. unfold cypher_search, cy_fulltext_query. txr_solve. Qed.

(** The bootstrap statement, run to its end, leaves the index in place and
    nothing else changed. *)
Lemma cypher_index_done s a s' :
  cypher_index s = Done a s' →
  a = [] ∧ tx_work s' = ensure_index (tx_work s).
Proof.
  destruct s as [g b].
  unfold cypher_index, cy_create_fulltext_index, ensure_index, mbind, TxM_bind, tick,
    get_graph, put_graph. cbn [tx_budget tx_work ix_name].
  destruct b as [[|k]|]; [discriminate|..]; cbn [tx_work tx_budget];
    destruct (has_index "promptTextIndex" g); cbn; intros H; by injection H as <- <-.
Qed.

Lemma txr_cypher_index : tx_rel index_ensured cypher_index.
Proof. intros s a s' H. right. by apply cypher_index_done in H as [_ ?]. Qed.

Lemma txr_get_prompt E id : tx_rel eq (_get_prompt (neo4j_run E) id).
Proof.
  unfold _get_prompt. rewrite neo4j_run_get. unfold param_str. cbn [assoc].
  rewrite decide_True by done. unfold node_getitem, node_get, getitem, single.
  apply txr_bind; [apply _| |intros result].
  - apply txr_bind; [apply _|apply txr_ret, _|intros; apply txr_cypher_get].
  - txr_solve.
Qed.

Lemma txr_search_prompts E q : tx_rel index_ensured (_search_prompts (neo4j_run E) q).
Proof.
  unfold _search_prompts. rewrite neo4j_run_index, neo4j_run_search.
  unfold param_str. cbn [assoc]. rewrite decide_True by done.
  apply txr_bind; [apply _|apply txr_cypher_index|intros _].
  apply tx_rel_eq_index_ensured.
  apply txr_bind; [apply _| |intros result].
  - apply txr_bind; [apply _|apply txr_ret, _|intros; apply txr_cypher_search].
  - unfold search_hit, getitem. txr_solve.
Qed.

Lemma run_transaction_rel {A} (R : relation graph) `{!Reflexive R}
    (work : TxM A) fault w :
  tx_rel R work → R (w_db w) (w_db (run_transaction work fault w).2).
Proof.
  intros Hw. unfold run_transaction.
  destruct (work (TxState (w_db w) fault)) as [a s|e s] eqn:Hr; [|done].
  apply Hw in Hr. cbn in Hr. unfold tick.
  destruct (tx_budget s) as [[|k]|]; cbn; done.
Qed.

(** ** Statements in READ access mode *)

Lemma read_only_same run query params s :
  tx_rel eq (run query params) →
  read_only run query params s = run query params s.
Proof.
  intros H. unfold read_only.
  destruct (run query params s) as [a s'|e s'] eqn:Hr; [|done].
  apply H in Hr. by rewrite decide_True.
Qed.

Lemma read_only_done run query params s a s' :
  read_only run query params s = Done a s' →
  run query params s = Done a s' ∧ tx_work s' = tx_work s.
Proof.
  unfold read_only. destruct (run query params s) as [a0 s0|e s0]; [|done].
  case_decide as Hw; [|done]. intros Hd. by injection Hd as <- <-.
Qed.

Lemma txr_read_only R `{!Reflexive R} run query params :
  tx_rel R (read_only run query params).
Proof. intros s a s' H. apply read_only_done in H as [_ ->]. done. Qed.

Lemma bind_ext_at {A B} (m m' : TxM A) (f f' : A → TxM B) s :
  m s = m' s → (∀ a s', f a s' = f' a s') → (m ≫= f) s = (m' ≫= f') s.
Proof.
  intros Hm Hf. unfold mbind, TxM_bind. rewrite Hm. by destruct (m' s).
Qed.

Lemma txr_neo4j_get E params : tx_rel eq (neo4j_run E get_query params).
Proof.
  rewrite neo4j_run_get. unfold param_str.
  destruct (assoc "id" params) as [[]|]; try apply txr_raise.
  apply txr_bind; [apply _|apply txr_ret, _|intros; apply txr_cypher_get].
Qed.

Lemma txr_neo4j_search E params : tx_rel eq (neo4j_run E search_query params).
Proof.
  rewrite neo4j_run_search. unfold param_str.
  destruct (assoc "q" params) as [[]|]; try apply txr_raise.
  apply txr_bind; [apply _|apply txr_ret, _|intros; apply txr_cypher_search].
Qed.

(** The get statement changes nothing, so READ mode lets it through. *)
Lemma _get_prompt_read_only E id s :
  _get_prompt (read_only (neo4j_run E)) id s = _get_prompt (neo4j_run E) id s.
Proof.
  unfold _get_prompt. apply bind_ext_at; [|done].
  apply read_only_same, txr_neo4j_get.
Qed.

Lemma read_transaction_get E id fault w :
  read_transaction (neo4j_run E) (λ tx, _get_prompt tx id) fault w
  = run_transaction (_get_prompt (neo4j_run E) id) fault w.
Proof.
  unfold read_transaction, run_transaction. by rewrite _get_prompt_read_only.
Qed.

(** On a graph that has the index the bootstrap statement changes
    nothing; on one that has not, it would add the index. *)
Lemma ensure_index_present g :
  has_index "promptTextIndex" g = true → ensure_index g = g.
Proof. intros H. unfold ensure_index. by rewrite H. Qed.

Lemma ensure_index_absent g :
  has_index "promptTextIndex" g = false → ensure_index g ≠ g.
Proof.
  intros H Heq. pose proof (has_index_ensure g) as H1. rewrite Heq in H1. congruence.
Qed.

Lemma read_only_index_present E s :
  has_index "promptTextIndex" (tx_work s) = true →
  read_only (neo4j_run E) index_query [] s = cypher_index s.
Proof.
  intros Hix. unfold read_only. rewrite neo4j_run_index.
  destruct (cypher_index s) as [a s'|e s'] eqn:Hr; [|done].
  apply cypher_index_done in Hr as [_ Hr].
  rewrite decide_True; [done|]. by rewrite Hr, ensure_index_present.
Qed.

Lemma read_only_index_absent E s :
  has_index "promptTextIndex" (tx_work s) = false →
  ∃ e s', read_only (neo4j_run E) index_query [] s = Failed e s' ∧
    (e = ServiceUnavailable ∨ e = ClientError "AccessMode") ∧
    (tx_budget s = None → e = ClientError "AccessMode").
Proof.
  intros Hix. unfold read_only. rewrite neo4j_run_index.
  destruct (cypher_index s) as [a s'|e s'] eqn:Hr.
  - apply cypher_index_done in Hr as [_ Hr].
    rewrite decide_False; [by eauto 6|]. rewrite Hr. by apply ensure_index_absent.
  - exists e, s'. split; [done|].
    destruct s as [g b]. cbn [tx_budget tx_work] in *. revert Hr.
    unfold cypher_index, cy_create_fulltext_index, mbind, TxM_bind, tick,
      get_graph, put_graph, raise. cbn [tx_budget tx_work ix_name].
    destruct b as [[|k]|]; cbn [tx_work tx_budget]; rewrite ?Hix;
      intros H; simplify_eq. split; [by left|done].
Qed.

(** With the index in the store, READ mode lets the whole search
    transaction through. *)
Lemma _search_prompts_read_only E q s :
  has_index "promptTextIndex" (tx_work s) = true →
  _search_prompts (read_only (neo4j_run E)) q s = _search_prompts (neo4j_run E) q s.
Proof.
  intros Hix. unfold _search_prompts. apply bind_ext_at.
  - rewrite neo4j_run_index. by apply read_only_index_present.
  - intros _ s'. apply bind_ext_at; [|done].
    apply read_only_same, txr_neo4j_search.
Qed.

(** Without it, the bootstrap statement is refused and the transaction
    function raises. *)
Lemma _search_prompts_refused E q s :
  has_index "promptTextIndex" (tx_work s) = false →
  ∃ e s', _search_prompts (read_only (neo4j_run E)) q s = Failed e s' ∧
    (e = ServiceUnavailable ∨ e = ClientError "AccessMode") ∧
    (tx_budget s = None → e = ClientError "AccessMode").
Proof.
  intros Hix. destruct (read_only_index_absent E s Hix) as (e & s' & Hr & He).
  exists e, s'. split; [|done]. unfold _search_prompts.
  by rewrite (bind_Failed _ _ _ _ _ Hr).
Qed.

Lemma read_transaction_search E q fault w :
  has_index "promptTextIndex" (w_db w) = true →
  read_transaction (neo4j_run E) (λ tx, _search_prompts tx q) fault w
  = run_transaction (_search_prompts (neo4j_run E) q) fault w.
Proof.
  intros Hix. unfold read_transaction, run_transaction.
  by rewrite _search_prompts_read_only.
Qed.

Lemma read_transaction_search_refused E q fault w :
  has_index "promptTextIndex" (w_db w) = false →
  ∃ e, read_transaction (neo4j_run E) (λ tx, _search_prompts tx q) fault w
       = (inl e, World (w_db w) (w_sessions w) (S (w_transactions w))) ∧
    (e = ServiceUnavailable ∨ e = ClientError "AccessMode") ∧
    (fault = None → e = ClientError "AccessMode").
Proof.
  intros Hix.
  destruct (_search_prompts_refused E q (TxState (w_db w) fault) Hix)
    as (e & s' & Hr & He1 & He2).
  exists e. split; [|by split]. unfold read_transaction, run_transaction.
  by rewrite Hr.
Qed.

(** What search makes of a store that has the index, and of one that has
    not. *)
Lemma search_prompts_present E q ev w :
  has_index "promptTextIndex" (w_db w) = true →
  search_prompts (neo4j_run E) q ev w
  = match run_transaction (_search_prompts (neo4j_run E) q) (e_fault ev)
            (open_session w) with
    | (inl e, w') => (Raised e, w')
    | (inr results, w') => (Return results, w')
    end.
Proof.
  intros Hix. unfold search_prompts. by rewrite read_transaction_search.
Qed.

Lemma search_prompts_absent E q ev w :
  has_index "promptTextIndex" (w_db w) = false →
  ∃ e, search_prompts (neo4j_run E) q ev w = (Raised e, counted w (w_db w)) ∧
    (e = ServiceUnavailable ∨ e = ClientError "AccessMode") ∧
    (e_fault ev = None → e = ClientError "AccessMode").
Proof.
  intros Hix.
  destruct (read_transaction_search_refused E q (e_fault ev) (open_session w) Hix)
    as (e & Hr & He).
  exists e. split; [|done]. unfold search_prompts. by rewrite Hr.
Qed.

Lemma get_prompt_keeps_db E id ev w :
  w_db (get_prompt (neo4j_run E) id ev w).2 = w_db w.
Proof.
  unfold get_prompt. rewrite read_transaction_get.
  pose proof (run_transaction_rel eq (_get_prompt (neo4j_run E) id) (e_fault ev)
                (open_session w) (txr_get_prompt E id)) as H.
  destruct (run_transaction _ _ _) as [[e|a] w']; cbn in *; [done|].
  by destruct (truthy a).
Qed.

Lemma search_prompts_keeps_db E q ev w :
  w_db (search_prompts (neo4j_run E) q ev w).2 = w_db w.
Proof.
  destruct (has_index "promptTextIndex" (w_db w)) eqn:Hix.
  - rewrite search_prompts_present by done.
    pose proof (run_transaction_rel index_ensured (_search_prompts (neo4j_run E) q)
                  (e_fault ev) (open_session w) (txr_search_prompts E q)) as H.
    destruct (run_transaction _ _ _) as [[e|a] w']; cbn in *;
      by destruct H as [-> | ->]; rewrite ?ensure_index_present.
  - by destruct (search_prompts_absent E q ev w Hix) as (e & -> & _).
Qed.

Lemma search_prompts_db_after E q ev w :
  index_ensured (w_db w) (w_db (search_prompts (neo4j_run E) q ev w).2).
Proof. left. apply search_prompts_keeps_db. Qed.

Lemma step_tags_unique E o ev w :
  tags_unique (w_db w) → tags_unique (w_db (step (neo4j_run E) o ev w).2).
Proof.
  intros Hu. destruct o as [prompt|id|q]; cbn [step].
  - destruct (create_prompt_cases E prompt ev w) as [[e ->]| ->]; cbn [snd w_db];
      [done|by apply created_tags_unique].
  - by rewrite get_prompt_keeps_db.
  - destruct (search_prompts_db_after E q ev w) as [-> | ->];
      [done|by apply ensure_index_tags_unique].
Qed.

Lemma run_ops_tags_unique E ops w :
  tags_unique (w_db w) → tags_unique (w_db (run_ops (neo4j_run E) ops w)).
Proof.
  revert w. induction ops as [|[o ev] ops IH]; intros w Hu; [done|].
  cbn. by apply IH, step_tags_unique.
Qed.

(** ** Node identities *)

Lemma foldl_merge_rel_next a ty ts g : g_next (foldl (merge_rel a ty) g ts) = g_next g.
Proof.
  revert g. induction ts as [|t ts IH]; intros g; [done|].
  cbn. by rewrite IH, merge_rel_next.
Qed.

Lemma merge_node_next l k v g : g_next g ≤ g_next (merge_node l k v g).2.
Proof. unfold merge_node. destruct (find_nodes l k v g); cbn; lia. Qed.

Lemma link_tag_next p g tag : g_next g ≤ g_next (link_tag p g tag).
Proof. unfold link_tag. rewrite foldl_merge_rel_next. apply merge_node_next. Qed.

Lemma foldl_link_tag_next p tags g : g_next g ≤ g_next (foldl (link_tag p) g tags).
Proof.
  revert g. induction tags as [|tag tags IH]; intros g; [done|].
  cbn. etrans; [apply link_tag_next | apply IH].
Qed.

Lemma created_next id text source tags g :
  g_next g < g_next (created id text source tags g).
Proof.
  unfold created. eapply Nat.lt_le_trans; [|apply foldl_link_tag_next]. cbn. lia.
Qed.

Lemma new_prompt_matches id text source g :
  node_matches Prompt "id" id (new_prompt id text source g).1.
Proof. split; [done|]. unfold prop. cbn. by rewrite decide_True. Qed.

(** C7 (tag merge idempotence). Starting from a store in which Tag names
    are unique, they are still unique after any sequence of operations of
    the service, whatever faults strike; and when two create calls that
    share a tag name both return, the store holds exactly one Tag node of
    that name, and both Prompt nodes have a HAS_TAG relationship to it. *)
Theorem tag_merge_idempotent E w ops pa eva ida pb evb idb tag :
  tags_unique (w_db w) →
  let run := neo4j_run E in
  tags_unique (w_db (run_ops run ops w)) ∧
  (let ra := create_prompt run pa eva w in
   let rb := create_prompt run pb evb ra.2 in
   ra.1 = Return ida → rb.1 = Return idb →
   tag ∈ or_empty (pc_tags pa) → tag ∈ or_empty (pc_tags pb) →
   ∃ na nb t,
     na ∈ g_nodes (w_db rb.2) ∧ node_matches Prompt "id" (e_uuid eva) na ∧
     nb ∈ g_nodes (w_db rb.2) ∧ node_matches Prompt "id" (e_uuid evb) nb ∧
     na ≠ nb ∧
     find_nodes Tag "name" tag (w_db rb.2) = [t] ∧
     Rel (node_id na) "HAS_TAG" (node_id t) ∈ g_rels (w_db rb.2) ∧
     Rel (node_id nb) "HAS_TAG" (node_id t) ∈ g_rels (w_db rb.2)).
Proof.
  intros Hu run. split; [by apply run_ops_tags_unique|]. cbn zeta. subst run.
  destruct (create_prompt_cases E pa eva w) as [[e ->]| ->]; [done|].
  cbn [fst snd]. intros _.
  set (ga := created _ _ _ _ (w_db w)).
  match goal with
  | |- context [create_prompt _ pb evb ?wa] =>
      destruct (create_prompt_cases E pb evb wa) as [[e ->]| ->]; [done|]
  end.
  cbn [fst snd w_db]. intros _ Hta Htb.
  set (gb := created _ _ _ _ ga).
  assert (tags_unique gb) as Hub by by do 2 apply created_tags_unique.
  assert (graph_le ga gb) as [Hn Hr] by apply created_le.
  destruct (created_complete (e_uuid eva) (pc_text pa) (pc_source pa)
              (or_empty (pc_tags pa)) (w_db w)) as [Hpa Hca].
  destruct (created_complete (e_uuid evb) (pc_text pb) (pc_source pb)
              (or_empty (pc_tags pb)) ga) as [Hpb Hcb].
  destruct (Hca tag Hta) as (ta & Hta1 & Hta2 & Hta3).
  destruct (Hcb tag Htb) as (tb & Htb1 & Htb2 & Htb3).
  assert (ta = tb) as -> by (eapply tags_unique_same; eauto).
  eexists _, _, tb. split_and!.
  - apply Hn, Hpa.
  - apply new_prompt_matches.
  - apply Hpb.
  - apply new_prompt_matches.
  - intros Heq. apply (f_equal node_id) in Heq. cbn in Heq.
    pose proof (created_next (e_uuid eva) (pc_text pa) (pc_source pa)
                  (or_empty (pc_tags pa)) (w_db w)). fold ga in H. lia.
  - by apply find_nodes_unique.
  - by apply Hr.
  - done.
Qed.

(** C7, on a fresh store: two prompts sharing the tag "robot". *)
Lemma tag_merge_idempotent_witness :
  let run := neo4j_run substring_engine in
  let pa := {| pc_text := "a story"; pc_source := None;
               pc_tags := Some ["story"; "robot"] |} in
  let pb := {| pc_text := "a robot"; pc_source := Some "user";
               pc_tags := Some ["robot"] |} in
  tags_unique (w_db fresh_world) ∧
  tags_unique (w_db (run_ops run [(Create pa, Env "u1" None); (Create pb, Env "u2" (Some 1))]
                       fresh_world)) ∧
  ∃ na nb t,
    let g := w_db (create_prompt run pb (Env "u2" None)
                     (create_prompt run pa (Env "u1" None) fresh_world).2).2 in
    na ≠ nb ∧ find_nodes Tag "name" "robot" g = [t] ∧
    Rel (node_id na) "HAS_TAG" (node_id t) ∈ g_rels g ∧
    Rel (node_id nb) "HAS_TAG" (node_id t) ∈ g_rels g.
Proof.
  cbn zeta.
  assert (tags_unique (w_db fresh_world)) as Hu by apply NoDup_nil_2.
  split; [exact Hu|].
  pose proof (tag_merge_idempotent substring_engine fresh_world
    [(Create {| pc_text := "a story"; pc_source := None;
                pc_tags := Some ["story"; "robot"] |}, Env "u1" None);
     (Create {| pc_text := "a robot"; pc_source := Some "user";
                pc_tags := Some ["robot"] |}, Env "u2" (Some 1))]
    {| pc_text := "a story"; pc_source := None; pc_tags := Some ["story"; "robot"] |}
    (Env "u1" None) (VDict [("id", VStr "u1")])
    {| pc_text := "a robot"; pc_source := Some "user"; pc_tags := Some ["robot"] |}
    (Env "u2" None) (VDict [("id", VStr "u2")]) "robot" Hu) as [H1 H2].
  split; [exact H1|].
  destruct H2 as (na & nb & t & _ & _ & _ & _ & Hne & Hf & Ha & Hb).
  - reflexivity.
  - reflexivity.
  - cbn. apply elem_of_cons. right. apply elem_of_cons. by left.
  - cbn. apply elem_of_cons. by left.
  - exists na, nb, t. by split_and!.
Defined.

(** ** Reading a prompt back *)

Lemma mapM_ok {A B} (f : A → TxM B) (h : A → B) l s :
  (∀ x, f x s = Done (h x) s) → mapM f l s = Done (h <$> l) s.
Proof.
  intros Hf. induction l as [|x l IH]; [done|].
  cbn [mapM]. rewrite (bind_Done _ _ _ _ _ (Hf x)).
  by rewrite (bind_Done _ _ _ _ _ IH).
Qed.

Lemma cy_collect_optional k (ns : list node) :
  cy_collect k (match ns with [] => [None] | _ => Some <$> ns end)
  = omap (λ n, prop n k) ns.
Proof.
  destruct ns as [|n ns]; [done|]. unfold cy_collect.
  generalize (n :: ns). intros l. induction l as [|x l IH]; [done|].
  cbn. rewrite IH. done.
Qed.

Lemma cypher_get_ok id g :
  cypher_get id (TxState g None)
  = Done (get_row g <$> find_nodes Prompt "id" id g) (TxState g None).
Proof.
  unfold cypher_get. rewrite (bind_Done _ _ _ _ _ (cy_match_ok _ _ _ _)).
  apply mapM_ok. intros p. unfold cy_optional_match_out, get_row, tags_of.
  unfold mbind, TxM_bind, tick, get_graph. cbn [tx_budget tx_work].
  rewrite <- cy_collect_optional.
  by destruct (out_neighbours p "HAS_TAG" Tag g).
Qed.

Lemma _get_prompt_absent E id g :
  find_nodes Prompt "id" id g = [] →
  _get_prompt (neo4j_run E) id (TxState g None) = Done VNull (TxState g None).
Proof.
  intros Hf. unfold _get_prompt. rewrite neo4j_run_get.
  erewrite bind_Done; [|apply (cypher_get_ok id g)]. by rewrite Hf.
Qed.

Lemma get_prompt_absent E id ev w :
  find_nodes Prompt "id" id (w_db w) = [] →
  e_fault ev = None →
  get_prompt (neo4j_run E) id ev w
  = (HTTPException 404 "Prompt not found",
     World (w_db w) (S (w_sessions w)) (S (w_transactions w))).
Proof.
  intros Hf Hev. unfold get_prompt. rewrite read_transaction_get. rewrite Hev.
  erewrite run_transaction_no_fault; [|by apply _get_prompt_absent]. reflexivity.
Qed.

(** C9 (not-found on get). When no Prompt node carries the identifier, the
    read transaction function returns [None] and raises nothing, and the
    endpoint turns that into the 404 response "Prompt not found"; the store
    is left as it was. *)
Theorem get_missing_is_not_found E id ev w :
  find_nodes Prompt "id" id (w_db w) = [] →
  e_fault ev = None →
  _get_prompt (neo4j_run E) id (TxState (w_db w) None)
    = Done VNull (TxState (w_db w) None) ∧
  get_prompt (neo4j_run E) id ev w
    = (HTTPException 404 "Prompt not found",
       World (w_db w) (S (w_sessions w)) (S (w_transactions w))) ∧
  (respond (get_prompt (neo4j_run E) id ev w)).1
    = Response 404 (VDict [("detail", VStr "Prompt not found")]).
Proof.
  intros Hf Hev. pose proof (get_prompt_absent E id ev w Hf Hev) as Hget.
  split_and!; [by apply _get_prompt_absent|done|]. by rewrite Hget.
Qed.

(** C9, for an identifier nothing was created under. *)
Lemma get_missing_is_not_found_witness :
  find_nodes Prompt "id" "no-such-id" (w_db fresh_world) = [] ∧
  get_prompt (neo4j_run substring_engine) "no-such-id" (Env "u" None) fresh_world
    = (HTTPException 404 "Prompt not found", World empty_graph 1 1).
Proof.
  split; [reflexivity|].
  apply (get_missing_is_not_found substring_engine "no-such-id" (Env "u" None)
           fresh_world); reflexivity.
Defined.

(** C10 (null id on a silent write miss). Whatever transaction the
    function is handed, if the create statement yields no record then
    [_create_prompt] returns [None] without raising, and, the commit going
    through, the endpoint answers 200 with an [id] that is null. *)
Theorem null_id_on_missing_record run prompt ev w s' :
  run create_query
      [("id", VStr (e_uuid ev)); ("text", VStr (pc_text prompt));
       ("source", of_option (pc_source prompt));
       ("tags", VList (VStr <$> or_empty (pc_tags prompt)))]
      (TxState (w_db w) (e_fault ev)) = Done [] s' →
  tx_budget s' ≠ Some 0 →
  _create_prompt run (e_uuid ev) (pc_text prompt) (pc_source prompt)
      (or_empty (pc_tags prompt)) (TxState (w_db w) (e_fault ev)) = Done VNull s' ∧
  (create_prompt run prompt ev w).1 = Return (VDict [("id", VNull)]) ∧
  (respond (create_prompt run prompt ev w)).1 = Response 200 (VDict [("id", VNull)]).
Proof.
  intros Hrun Hcommit.
  assert (_create_prompt run (e_uuid ev) (pc_text prompt) (pc_source prompt)
            (or_empty (pc_tags prompt)) (TxState (w_db w) (e_fault ev)) = Done VNull s')
    as Hfn.
  { unfold _create_prompt. by rewrite (bind_Done _ _ _ _ _ Hrun). }
  assert ((create_prompt run prompt ev w).1 = Return (VDict [("id", VNull)])) as Hc.
  { unfold create_prompt, write_transaction, run_transaction. cbn [open_session w_db].
    rewrite Hfn. unfold tick. destruct (tx_budget s') as [[|k]|]; done. }
  split_and!; [done|done|]. unfold respond. by rewrite Hc.
Qed.

(** C10, with a transaction whose statements yield no record. *)
Lemma null_id_on_missing_record_witness :
  let prompt := {| pc_text := "hello"; pc_source := None; pc_tags := None |} in
  (respond (create_prompt silent_run prompt (Env "u" None) fresh_world)).1
  = Response 200 (VDict [("id", VNull)]).
Proof.
  cbn zeta.
  apply (null_id_on_missing_record silent_run
           {| pc_text := "hello"; pc_source := None; pc_tags := None |}
           (Env "u" None) fresh_world (TxState empty_graph None)).
  - reflexivity.
  - discriminate.
Defined.

(** With the store as modelled the create statement always yields its one
    record, so the null identifier needs a transaction that behaves
    otherwise. *)
Lemma cypher_create_one_record id text source tags s rows s' :
  cypher_create id text source tags s = Done rows s' → rows = [[("id", VStr id)]].
Proof.
  destruct s as [g b]. intros H. apply fi_cypher_create in H.
  rewrite cypher_create_ok in H. by injection H as <- _.
Qed.

(** ** The tags a prompt reaches *)

Lemma tags_of_elem p g x :
  x ∈ tags_of p g ↔
  ∃ n, n ∈ g_nodes g ∧ node_matches Tag "name" x n ∧
       Rel (node_id p) "HAS_TAG" (node_id n) ∈ g_rels g.
Proof.
  unfold tags_of, out_neighbours. rewrite list_elem_of_omap. split.
  - intros (n & Hn & Hp). apply list_elem_of_bind in Hn as (r & Hn & Hr).
    case_decide as Hd; [|by apply elem_of_nil in Hn].
    apply list_elem_of_filter in Hn as [[Hid Hl] Hn].
    exists n. split_and!; [done|by split|].
    destruct r as [src ty dst], Hd as [Hs Ht]. cbn in *. by subst.
  - intros (n & Hn & [Hl Hp] & Hr). exists n. split; [|done].
    apply list_elem_of_bind. eexists. split; [|exact Hr]. cbn.
    rewrite decide_True by done. by apply list_elem_of_filter.
Qed.

Lemma out_neighbours_add_rel a ty l r g :
  out_neighbours a ty l (add_rel r g)
  = out_neighbours a ty l g ++
    (if decide (rel_src r = node_id a ∧ rel_type r = ty)
     then filter (λ n, node_id n = rel_dst r ∧ node_label n = l) (g_nodes g)
     else []).
Proof.
  unfold out_neighbours, add_rel. cbn [g_rels g_nodes].
  rewrite bind_app. f_equal. cbn. by rewrite app_nil_r.
Qed.

Lemma out_neighbours_add_node a ty l lb m g :
  Forall (λ r, rel_dst r < g_next g) (g_rels g) →
  out_neighbours a ty l (add_node lb m g).2 = out_neighbours a ty l g.
Proof.
  unfold out_neighbours, add_node. cbn [snd g_rels g_nodes].
  induction (g_rels g) as [|r rs IH]; intros Hb; [done|].
  apply Forall_cons in Hb as [Hr Hb]. cbn. rewrite IH by done. f_equal.
  case_decide; [|done]. rewrite filter_app. rewrite filter_cons_False, filter_nil.
  - by rewrite app_nil_r.
  - cbn. lia.
Qed.

Lemma filter_by_id (ns : list node) t l :
  NoDup (node_id <$> ns) → t ∈ ns → node_label t = l →
  filter (λ n, node_id n = node_id t ∧ node_label n = l) ns = [t].
Proof.
  intros Hnd Ht Hl. induction ns as [|n ns IH]; [by apply elem_of_nil in Ht|].
  cbn in Hnd. apply NoDup_cons in Hnd as [Hn Hnd].
  apply elem_of_cons in Ht as [<-|Ht].
  - rewrite filter_cons_True by done. f_equal.
    destruct (filter _ ns) as [|y ys] eqn:Hf; [done|].
    assert (y ∈ filter (λ n, node_id n = node_id t ∧ node_label n = l) ns) as Hy
      by (rewrite Hf; apply elem_of_cons; by left).
    apply list_elem_of_filter in Hy as [[Hid _] Hy].
    exfalso. apply Hn. rewrite <- Hid. by apply list_elem_of_fmap_2.
  - rewrite filter_cons_False; [by apply IH|].
    intros [Hid _]. apply Hn. rewrite Hid. by apply list_elem_of_fmap_2.
Qed.

Lemma filter_by_id_none (ns : list node) i l :
  Forall (λ n, node_id n < i) ns →
  filter (λ n, node_id n = i ∧ node_label n = l) ns = [].
Proof.
  induction ns as [|n ns IH]; intros Hb; [done|].
  apply Forall_cons in Hb as [Hn Hb].
  rewrite filter_cons_False; [by apply IH|]. lia.
Qed.

Lemma find_nodes_prompt_link_tag k v p g tag :
  find_nodes Prompt k v (link_tag p g tag) = find_nodes Prompt k v g.
Proof.
  unfold link_tag, find_nodes. rewrite foldl_merge_rel_nodes.
  unfold merge_node. destruct (find_nodes Tag "name" tag g); [|done].
  cbn. rewrite filter_app, filter_cons_False, filter_nil; [by rewrite app_nil_r|].
  by intros [? _].
Qed.

Lemma find_nodes_prompt_foldl k v p tags g :
  find_nodes Prompt k v (foldl (link_tag p) g tags) = find_nodes Prompt k v g.
Proof.
  revert g. induction tags as [|tag tags IH]; intros g; [done|].
  cbn. by rewrite IH, find_nodes_prompt_link_tag.
Qed.

(** The identifier being fresh, the new node is the only one found by it. *)
Lemma find_nodes_created id text source tags g :
  find_nodes Prompt "id" id g = [] →
  find_nodes Prompt "id" id (created id text source tags g)
  = [(new_prompt id text source g).1].
Proof.
  intros Hf. unfold created. rewrite find_nodes_prompt_foldl.
  unfold find_nodes, new_prompt, add_node in *. cbn [snd fst g_nodes].
  rewrite filter_app, Hf, filter_cons_True; [done|].
  split; [done|]. unfold prop. cbn. by rewrite decide_True.
Qed.

(** ** Linking the tags of a new prompt, one by one *)

Lemma out_neighbours_fresh a ty l g :
  Forall (λ r, rel_src r < g_next g ∧ rel_dst r < g_next g) (g_rels g) →
  node_id a = g_next g →
  out_neighbours a ty l g = [].
Proof.
  intros Hb Ha. unfold out_neighbours.
  induction (g_rels g) as [|r rs IH]; [done|].
  apply Forall_cons in Hb as [[Hs _] Hb]. cbn. rewrite IH by done.
  rewrite decide_False; [done|]. intros [? _]. lia.
Qed.

Lemma linking_init id text source g :
  graph_wf g →
  linking (new_prompt id text source g).1 [] (new_prompt id text source g).2.
Proof.
  intros (Hids & Hnd & Hrels & Hu).
  assert (tags_of (new_prompt id text source g).1 (new_prompt id text source g).2 = [])
    as Htags.
  { unfold tags_of, new_prompt. rewrite out_neighbours_add_node.
    - by rewrite out_neighbours_fresh.
    - eapply Forall_impl; [exact Hrels|]. by intros r [_ ?]. }
  split_and!.
  - unfold graph_wf, new_prompt, add_node. cbn [snd fst g_nodes g_rels g_next].
    split_and!.
    + apply Forall_app. split.
      * eapply Forall_impl; [exact Hids|]. cbn. lia.
      * apply Forall_singleton. cbn. lia.
    + rewrite fmap_app. apply NoDup_app. split_and!; [done| |apply NoDup_singleton].
      intros x Hx Hx'. apply list_elem_of_singleton in Hx'. cbn in Hx'. subst x.
      apply list_elem_of_fmap in Hx as (n & Hn & Hin).
      rewrite Forall_forall in Hids. apply Hids in Hin. lia.
    + eapply Forall_impl; [exact Hrels|]. cbn. lia.
    + unfold tags_unique in *.
      by rewrite <- (tag_names_new_prompt id text source g) in Hu.
  - apply add_node_elem.
  - rewrite Htags. apply NoDup_nil_2.
  - intros x. by rewrite Htags.
Qed.

Lemma linking_step p seen g tag :
  linking p seen g → linking p (seen ++ [tag]) (link_tag p g tag).
Proof.
  intros (Hwf & Hp & Hnd_t & Hseen).
  pose proof Hwf as (Hids & Hnd & Hrels & Hu).
  assert (node_id p < g_next g) as Hpid.
  { rewrite Forall_forall in Hids. by apply Hids. }
  assert (∀ g', tags_of p g' = tags_of p g ++ [tag] →
            tag ∉ tags_of p g →
            NoDup (tags_of p g') ∧ ∀ x, x ∈ tags_of p g' ↔ x ∈ seen ++ [tag]) as Hext.
  { intros g' -> Hnew. split.
    - apply NoDup_app. split_and!; [done| |apply NoDup_singleton].
      intros x Hx Hx'. apply list_elem_of_singleton in Hx'. by subst x.
    - intros x. rewrite !elem_of_app, Hseen. done. }
  unfold link_tag, merge_node.
  destruct (find_nodes Tag "name" tag g) as [|t ms] eqn:Hf.
  - cbn [fst snd foldl add_node].
    set (t := Node (g_next g) Tag (stored_props [("name", Some tag)])).
    set (g1 := Graph (g_nodes g ++ [t]) (g_rels g) (S (g_next g)) (g_indexes g)).
    assert (has_rel (Rel (node_id p) "HAS_TAG" (node_id t)) g1 = false) as Hno.
    { apply bool_decide_eq_false. intros Hin. cbn in Hin.
      rewrite Forall_forall in Hrels. apply Hrels in Hin. cbn in Hin. lia. }
    unfold merge_rel. rewrite Hno.
    assert (tags_of p (add_rel (Rel (node_id p) "HAS_TAG" (node_id t)) g1)
            = tags_of p g ++ [tag]) as Htags.
    { unfold tags_of. rewrite out_neighbours_add_rel, decide_True by done.
      change g1 with (add_node Tag [("name", Some tag)] g).2.
      rewrite out_neighbours_add_node
        by (eapply Forall_impl; [exact Hrels|]; by intros r [_ ?]).
      rewrite omap_app. f_equal. cbn [add_node snd g_nodes rel_dst].
      rewrite filter_app, filter_by_id_none by done.
      rewrite filter_cons_True by done. cbn. unfold prop. cbn.
      by rewrite decide_True. }
    destruct (Hext _ Htags) as [H1 H2].
    { intros Hin. apply tags_of_elem in Hin as (n & Hn & Hm & _).
      assert (n ∈ find_nodes Tag "name" tag g) as Hc by by apply find_nodes_elem.
      rewrite Hf in Hc. by apply elem_of_nil in Hc. }
    split_and!; [|apply elem_of_app; by left|done|done].
    unfold graph_wf, add_rel. cbn [g_nodes g_rels g_next g1].
    split_and!.
    + apply Forall_app. split.
      * eapply Forall_impl; [exact Hids|]. cbn. lia.
      * apply Forall_singleton. cbn. lia.
    + rewrite fmap_app. apply NoDup_app. split_and!; [done| |apply NoDup_singleton].
      intros x Hx Hx'. apply list_elem_of_singleton in Hx'. cbn in Hx'. subst x.
      apply list_elem_of_fmap in Hx as (n & Hn & Hin).
      rewrite Forall_forall in Hids. apply Hids in Hin. lia.
    + apply Forall_app. split.
      * eapply Forall_impl; [exact Hrels|]. cbn. lia.
      * apply Forall_singleton. cbn. lia.
    + pose proof (merge_node_tags_unique tag g Hu) as Hu'.
      unfold merge_node in Hu'. by rewrite Hf in Hu'.
  - pose proof (find_nodes_length g tag Hu) as Hlen. rewrite Hf in Hlen.
    destruct ms as [|t' ms]; [|cbn in Hlen; lia].
    assert (t ∈ g_nodes g ∧ node_matches Tag "name" tag t) as [Ht Hm].
    { apply find_nodes_elem. rewrite Hf. apply elem_of_cons. by left. }
    assert (node_id t < g_next g) as Htid.
    { rewrite Forall_forall in Hids. by apply Hids. }
    cbn [fst snd foldl]. unfold merge_rel, has_rel. case_bool_decide as Hr.
    + split_and!; [done|done|done|].
      intros x. rewrite elem_of_app, list_elem_of_singleton, <- Hseen.
      split; [auto|]. intros [?| ->]; [done|]. apply tags_of_elem. eauto.
    + assert (tags_of p (add_rel (Rel (node_id p) "HAS_TAG" (node_id t)) g)
              = tags_of p g ++ [tag]) as Htags.
      { unfold tags_of. rewrite out_neighbours_add_rel, decide_True by done.
        cbn [rel_dst]. rewrite (filter_by_id _ t Tag) by (done || apply Hm).
        rewrite omap_app. cbn. destruct Hm as [_ ->]. done. }
      destruct (Hext _ Htags) as [H1 H2].
      { intros Hin. apply tags_of_elem in Hin as (n & Hn & Hmn & Hrn).
        assert (n = t) as -> by (eapply tags_unique_same; eauto).
        done. }
      split_and!; [|done|done|done].
      unfold graph_wf, add_rel. cbn [g_nodes g_rels g_next].
      split_and!; [done|done| |done].
      apply Forall_app. split; [done|]. apply Forall_singleton. cbn. lia.
Qed.

Lemma linking_foldl p tags seen g :
  linking p seen g → linking p (seen ++ tags) (foldl (link_tag p) g tags).
Proof.
  revert seen g. induction tags as [|tag tags IH]; intros seen g H.
  - by rewrite app_nil_r.
  - cbn [foldl]. rewrite (assoc_L (++) seen [tag] tags : seen ++ tag :: tags = _).
    by apply IH, linking_step.
Qed.

Lemma created_linking id text source tags g :
  graph_wf g →
  linking (new_prompt id text source g).1 tags (created id text source tags g).
Proof.
  intros Hwf. apply (linking_foldl _ tags []), linking_init, Hwf.
Qed.

Lemma created_wf id text source tags g :
  graph_wf g → graph_wf (created id text source tags g).
Proof. intros Hwf. by destruct (created_linking id text source tags g Hwf). Qed.

Lemma ensure_index_wf g : graph_wf g → graph_wf (ensure_index g).
Proof.
  unfold ensure_index. destruct (has_index _ g); [done|].
  unfold graph_wf, tags_unique, tag_names, add_index. by cbn.
Qed.

(** Every store the service reaches from a well-formed one is well-formed. *)
Lemma run_ops_wf E ops w :
  graph_wf (w_db w) → graph_wf (w_db (run_ops (neo4j_run E) ops w)).
Proof.
  revert w. induction ops as [|[o ev] ops IH]; intros w Hwf; [done|].
  cbn. apply IH. destruct o as [prompt|id|q]; cbn [step fst snd].
  - destruct (create_prompt_cases E prompt ev w) as [[e ->]| ->]; cbn [snd w_db];
      [done|by apply created_wf].
  - by rewrite get_prompt_keeps_db.
  - destruct (search_prompts_db_after E q ev w) as [-> | ->];
      [done|by apply ensure_index_wf].
Qed.

Lemma or_empty_Some tags : or_empty (Some tags) = tags.
Proof. by destruct tags. Qed.

Lemma graph_wf_empty : graph_wf empty_graph.
Proof. unfold graph_wf, tags_unique. cbn. split_and!; constructor. Qed.

Lemma _get_prompt_created E id text source tags g :
  find_nodes Prompt "id" id g = [] →
  let g' := created id text source tags g in
  _get_prompt (neo4j_run E) id (TxState g' None)
  = Done (VDict [("id", VStr id); ("text", VStr text); ("source", of_option source);
                 ("tags", VList (VStr <$> tags_of (new_prompt id text source g).1 g'))])
         (TxState g' None).
Proof.
  intros Hf g'. unfold _get_prompt. rewrite neo4j_run_get.
  erewrite bind_Done; [|apply (cypher_get_ok id g')].
  unfold g'. rewrite find_nodes_created by done.
  by destruct source.
Qed.

(** C1 (round trip). On a well-formed store and with a fresh identifier,
    create returns the identifier, and get on it returns the record with the
    text and the source that were given and with a tag list that has no
    duplicate and holds exactly the strings of the input tags. *)
Theorem create_get_round_trip E w uuid text source tags ev :
  graph_wf (w_db w) →
  find_nodes Prompt "id" uuid (w_db w) = [] →
  e_fault ev = None →
  let run := neo4j_run E in
  let prompt := {| pc_text := text; pc_source := source; pc_tags := Some tags |} in
  let rc := create_prompt run prompt (Env uuid None) w in
  ∃ names,
    rc.1 = Return (VDict [("id", VStr uuid)]) ∧
    (get_prompt run uuid ev rc.2).1
      = Return (VDict [("id", VStr uuid); ("text", VStr text);
                       ("source", of_option source);
                       ("tags", VList (VStr <$> names))]) ∧
    NoDup names ∧
    ∀ x, x ∈ names ↔ x ∈ tags.
Proof.
  intros Hwf Hfresh Hev. cbn zeta.
  rewrite create_prompt_no_fault. cbn [fst snd pc_text pc_source pc_tags].
  rewrite or_empty_Some.
  destruct (created_linking uuid text source tags (w_db w) Hwf) as (_ & _ & Hnd & Hin).
  eexists. split_and!; [done| |exact Hnd|exact Hin].
  unfold get_prompt. rewrite read_transaction_get. rewrite Hev.
  erewrite run_transaction_no_fault;
    [|cbn [open_session w_db]; by apply _get_prompt_created].
  reflexivity.
Qed.

(** C1, on the scenario of the specification, with a repeated tag. *)
Lemma create_get_round_trip_witness :
  let run := neo4j_run substring_engine in
  let prompt := {| pc_text := "Write a story about a robot"; pc_source := Some "user";
                   pc_tags := Some ["story"; "robot"; "story"] |} in
  ∃ names,
    (get_prompt run "X" (Env "Y" None)
       (create_prompt run prompt (Env "X" None) fresh_world).2).1
      = Return (VDict [("id", VStr "X"); ("text", VStr "Write a story about a robot");
                       ("source", VStr "user"); ("tags", VList (VStr <$> names))]) ∧
    NoDup names ∧
    ∀ x, x ∈ names ↔ x ∈ ["story"; "robot"; "story"].
Proof.
  cbn zeta.
  destruct (create_get_round_trip substring_engine fresh_world "X"
              "Write a story about a robot" (Some "user") ["story"; "robot"; "story"]
              (Env "Y" None) graph_wf_empty eq_refl eq_refl)
    as (names & _ & Hget & Hnd & Hin).
  exists names. by split_and!.
Defined.

Example round_trip_tags :
  (get_prompt (neo4j_run substring_engine) "X" (Env "Y" None)
     (create_prompt (neo4j_run substring_engine)
        {| pc_text := "t"; pc_source := None;
           pc_tags := Some ["story"; "robot"; "story"] |}
        (Env "X" None) fresh_world).2).1
  = Return (VDict [("id", VStr "X"); ("text", VStr "t"); ("source", VNull);
                   ("tags", VList [VStr "story"; VStr "robot"])]).
Proof. by vm_compute. Qed.

(** ** Ranking *)

#[global] Instance score_ge_total : Total score_ge.
Proof.
  intros a b. unfold score_ge.
  destruct (Qlt_le_dec a.2 b.2) as [H|H]; [right; by apply Qlt_le_weak | by left].
Qed.

#[global] Instance score_ge_trans : Transitive score_ge.
Proof. intros a b c. unfold score_ge. intros H1 H2. by eapply Qle_trans. Qed.





Lemma mapM_search_hit (hits : list (node * Q)) s :
  mapM search_hit (search_row <$> hits) s = Done (hit_dict <$> hits) s.
Proof.
  induction hits as [|h hits IH]; [done|].
  cbn [fmap list_fmap mapM].
  erewrite bind_Done; [|reflexivity]. by rewrite (bind_Done _ _ _ _ _ IH).
Qed.

(** ** The search transaction, step by step *)

Lemma find_index_has name g :
  has_index name g = true → ∃ ix, find_index name g = Some ix.
Proof.
  unfold has_index, find_index. intros H. apply bool_decide_eq_true in H.
  apply list_elem_of_fmap in H as (ix & Hn & Hin).
  destruct (filter (λ ix, ix_name ix = name) (g_indexes g)) as [|y ys] eqn:Hf; [|eauto].
  exfalso. eapply filter_nil_not_elem_of; [exact Hf| |exact Hin]. done.
Qed.



Lemma tick_done s u s' : tick s = Done u s' → tx_work s' = tx_work s.
Proof.
  unfold tick. destruct (tx_budget s) as [[|k]|]; intros H; try discriminate;
    by injection H as <- <-.
Qed.

Lemma cypher_search_done E q s rows s' :
  cypher_search E q s = Done rows s' →
  tx_work s' = tx_work s ∧
  ∃ lq ix, parse_query E q = Some lq ∧
           find_index "promptTextIndex" (tx_work s) = Some ix ∧
           rows = search_row <$> ranked (matches_of E lq ix (tx_work s)).
Proof.
  unfold cypher_search, cy_fulltext_query. intros H.
  apply bind_inv in H as (hits & s1 & H1 & H2). injection H2 as <- <-.
  apply bind_inv in H1 as (u & s2 & Ht & H1). apply tick_done in Ht.
  apply bind_inv in H1 as (g & s3 & Hg & H1). injection Hg as <- <-.
  rewrite Ht in H1.
  destruct (find_index "promptTextIndex" (tx_work s)) as [ix|]; [|discriminate].
  destruct (parse_query E q) as [lq|]; [|discriminate].
  injection H1 as <- <-. split; [done|]. by exists lq, ix.
Qed.







(** ** Queries that match nothing, and the empty query *)









(** ** The index bootstrap *)

Lemma cypher_index_failed s e s' :
  cypher_index s = Failed e s' → e = ServiceUnavailable.
Proof.
  destruct s as [g b].
  unfold cypher_index, cy_create_fulltext_index, mbind, TxM_bind, tick,
    get_graph, put_graph, raise. cbn [tx_budget tx_work ix_name].
  destruct b as [[|k]|]; cbn [tx_work tx_budget];
    try destruct (has_index "promptTextIndex" g); cbn; intros H; by simplify_eq.
Qed.

Lemma cypher_search_failed E q s e s' :
  has_index "promptTextIndex" (tx_work s) = true →
  cypher_search E q s = Failed e s' →
  e = ServiceUnavailable ∨
  (e = ClientError "ProcedureCallFailed: query parse error" ∧ parse_query E q = None).
Proof.
  intros Hix. destruct (find_index_has _ _ Hix) as [ix Hf]. destruct s as [g b].
  cbn [tx_work] in Hf.
  unfold cypher_search, cy_fulltext_query, mbind, TxM_bind, tick, get_graph, raise.
  cbn [tx_budget tx_work].
  destruct b as [[|k]|]; cbn [tx_work tx_budget]; rewrite ?Hf;
    try destruct (parse_query E q); cbn; intros H; simplify_eq; auto.
Qed.

(** The statement order of [_search_prompts]: the bootstrap statement runs
    first; the query statement runs only after it, on a graph that has the
    index. *)
Lemma _search_prompts_order E q s :
  (∃ s1, cypher_index s = Failed ServiceUnavailable s1 ∧
         _search_prompts (neo4j_run E) q s = Failed ServiceUnavailable s1)
  ∨
  (∃ s1, cypher_index s = Done [] s1 ∧
         has_index "promptTextIndex" (tx_work s1) = true ∧
         _search_prompts (neo4j_run E) q s = query_and_collect (neo4j_run E) q s1).
Proof.
  unfold _search_prompts, query_and_collect. rewrite neo4j_run_index.
  destruct (cypher_index s) as [a s1|e s1] eqn:Hi.
  - right. exists s1. apply cypher_index_done in Hi as Hd. destruct Hd as [-> Hw].
    split_and!; [done| |by rewrite (bind_Done _ _ _ _ _ Hi)].
    rewrite Hw. apply has_index_ensure.
  - left. exists s1. apply cypher_index_failed in Hi as He. subst e.
    split; [done|]. by rewrite (bind_Failed _ _ _ _ _ Hi).
Qed.

Lemma query_and_collect_failed E q s e s' :
  has_index "promptTextIndex" (tx_work s) = true →
  query_and_collect (neo4j_run E) q s = Failed e s' →
  e = ServiceUnavailable ∨
  (e = ClientError "ProcedureCallFailed: query parse error" ∧ parse_query E q = None).
Proof.
  intros Hix. unfold query_and_collect. rewrite neo4j_run_search.
  destruct (cypher_search E q s) as [rows s1|e1 s1] eqn:Hs.
  - erewrite bind_Done; [|exact Hs].
    apply cypher_search_done in Hs as (_ & lq & ix & _ & _ & ->).
    erewrite bind_Done; [|apply mapM_search_hit]. discriminate.
  - erewrite bind_Failed; [|exact Hs]. intros H. injection H as <- <-.
    by eapply cypher_search_failed.
Qed.

Lemma _search_prompts_failed E q s e s' :
  _search_prompts (neo4j_run E) q s = Failed e s' →
  e = ServiceUnavailable ∨
  (e = ClientError "ProcedureCallFailed: query parse error" ∧ parse_query E q = None).
Proof.
  destruct (_search_prompts_order E q s) as [(s1 & _ & ->)|(s1 & _ & Hix & ->)].
  - intros H. injection H as <- _. by left.
  - by apply query_and_collect_failed.
Qed.

(** What search can raise: the lost connection, the query the engine
    rejects, and the bootstrap statement refused on a store that lacks the
    index. *)
Lemma search_prompts_raised E q ev w e :
  (search_prompts (neo4j_run E) q ev w).1 = Raised e →
  e = ServiceUnavailable ∨
  (e = ClientError "ProcedureCallFailed: query parse error" ∧ parse_query E q = None) ∨
  (e = ClientError "AccessMode" ∧ has_index "promptTextIndex" (w_db w) = false).
Proof.
  destruct (has_index "promptTextIndex" (w_db w)) eqn:Hix.
  - rewrite search_prompts_present by done. unfold run_transaction.
    destruct (_search_prompts (neo4j_run E) q _) as [v s|e1 s] eqn:Hs.
    + unfold tick. destruct (tx_budget s) as [[|k]|]; cbn; intros H; simplify_eq.
      by left.
    + cbn. intros H. injection H as <-.
      destruct (_search_prompts_failed E q _ _ _ Hs) as [?|?]; auto.
  - destruct (search_prompts_absent E q ev w Hix) as (e1 & -> & [-> | ->] & _);
      cbn; intros H; injection H as <-; auto.
Qed.

(** Without [IF NOT EXISTS] the statement fails on an index that exists,
    and the query procedure fails on an index that does not. *)
Example bootstrap_is_needed :
  let ix := FtIndex "promptTextIndex" Prompt "text" in
  cy_create_fulltext_index false ix (TxState (ensure_index empty_graph) None)
    = Failed (ClientError "EquivalentSchemaRuleAlreadyExists")
             (TxState (ensure_index empty_graph) None) ∧
  cypher_search substring_engine "robot" (TxState empty_graph None)
    = Failed (ClientError "ProcedureCallFailed: no such fulltext index")
             (TxState empty_graph None).
Proof. by vm_compute. Qed.

(** C8 (index bootstrap), where the code departs from the claim. The
    bootstrap statement is the first statement of every search, and search
    runs it in a read transaction. On a store that lacks the index the
    statement is a schema write, which READ access mode refuses: search
    raises (the access-mode error when the connection is up), whatever the
    query, and commits nothing, so the index is still missing afterwards
    and the next search raises again. The absence of the index is a hard
    failure of search. *)
Theorem search_without_index_raises E q ev w q2 ev2 :
  has_index "promptTextIndex" (w_db w) = false →
  let run := neo4j_run E in
  let r1 := search_prompts run q ev w in
  let r2 := search_prompts run q2 ev2 r1.2 in
  (r1.1 = Raised ServiceUnavailable ∨ r1.1 = Raised (ClientError "AccessMode")) ∧
  (e_fault ev = None → r1.1 = Raised (ClientError "AccessMode")) ∧
  r1.2 = counted w (w_db w) ∧
  has_index "promptTextIndex" (w_db r1.2) = false ∧
  (r2.1 = Raised ServiceUnavailable ∨ r2.1 = Raised (ClientError "AccessMode")) ∧
  (e_fault ev2 = None → r2.1 = Raised (ClientError "AccessMode")).
Proof.
  intros Hix. cbn zeta.
  destruct (search_prompts_absent E q ev w Hix) as (e & Hr & He & Hn).
  rewrite Hr. cbn [fst snd].
  destruct (search_prompts_absent E q2 ev2 (counted w (w_db w)) Hix)
    as (e2 & Hr2 & He2 & Hn2).
  rewrite Hr2. cbn [fst snd].
  split_and!; [|by intros H; rewrite (Hn H)|done|done| |by intros H; rewrite (Hn2 H)].
  - by destruct He as [-> | ->]; [left|right].
  - by destruct He2 as [-> | ->]; [left|right].
Qed.

(** C8, on the empty store: two searches in succession, the connection
    up. *)
Lemma search_without_index_raises_witness :
  let run := neo4j_run substring_engine in
  let r1 := search_prompts run "robot" (Env "u" None) fresh_world in
  let r2 := search_prompts run "robot" (Env "v" None) r1.2 in
  has_index "promptTextIndex" (w_db fresh_world) = false ∧
  r1 = (Raised (ClientError "AccessMode"), World empty_graph 1 1) ∧
  r2.1 = Raised (ClientError "AccessMode").
Proof.
  cbn zeta.
  destruct (search_without_index_raises substring_engine "robot" (Env "u" None)
              fresh_world "robot" (Env "v" None) eq_refl)
    as (_ & H1 & H2 & _ & _ & H3).
  split_and!; [reflexivity| |exact (H3 eq_refl)].
  specialize (H1 eq_refl). clear H3.
  destruct (search_prompts _ _ _ _) as [o w']. cbn in H1, H2. by subst.
Defined.

(** ** Routing *)

Lemma search_endpoint_never_dispatched method path ps :
  dispatch app_routes method path ≠ Dispatch EP_search_prompts ps.
Proof.
  unfold dispatch. destruct (path_segments path) as [segs|]; [|done].
  destruct (first_match app_routes method segs false) as [d|] eqn:Hm.
  - intros ->. revert Hm. unfold app_routes. cbn [first_match].
    unfold route_matches. cbn [rt_path rt_methods rt_endpoint].
    destruct segs as [|a [|b [|c segs]]]; cbn [match_path];
      repeat (case_decide; subst; cbn [mbind option_bind]; try done);
      repeat (case_bool_decide; cbn [first_match]; try done);
      intros; simplify_eq.
  - by destruct (_ && _).
Qed.

(** C2 (route reachability). The route with the path parameter is
    registered before the search route and matches its path, so a GET on
    /prompts/search, whatever its query string, is served by the
    get-by-id endpoint with prompt_id "search": the answer is that
    endpoint's, a 404 when no prompt has that identifier. No request at
    all is dispatched to the search endpoint. *)
Theorem search_route_shadowed E run query body ev w method path ps :
  dispatch app_routes "GET" "/prompts/search"
    = Dispatch EP_get_prompt [("prompt_id", "search")] ∧
  serve run (Request "GET" "/prompts/search" query body) ev w
    = respond (get_prompt run "search" ev w) ∧
  (find_nodes Prompt "id" "search" (w_db w) = [] → e_fault ev = None →
   (serve (neo4j_run E) (Request "GET" "/prompts/search" query body) ev w).1
   = Response 404 (VDict [("detail", VStr "Prompt not found")])) ∧
  dispatch app_routes method path ≠ Dispatch EP_search_prompts ps.
Proof.
  split_and!.
  - reflexivity.
  - reflexivity.
  - intros Hf Hev.
    change (serve (neo4j_run E) (Request "GET" "/prompts/search" query body) ev w)
      with (respond (get_prompt (neo4j_run E) "search" ev w)).
    by rewrite get_prompt_absent.
  - apply search_endpoint_never_dispatched.
Qed.

(** C2, with a query string, on a store that holds a prompt. *)
Lemma search_route_shadowed_witness :
  let run := neo4j_run substring_engine in
  let w := (create_prompt run {| pc_text := "a robot"; pc_source := None; pc_tags := None |}
              (Env "u" None) fresh_world).2 in
  (serve run (Request "GET" "/prompts/search" [("q", "robot")] None) (Env "v" None) w).1
  = Response 404 (VDict [("detail", VStr "Prompt not found")]).
Proof.
  cbn zeta.
  match goal with
  | |- (serve _ _ _ ?w).1 = _ =>
      destruct (search_route_shadowed substring_engine (neo4j_run substring_engine)
                  [("q", "robot")] None (Env "v" None) w "GET" "/prompts/search" [])
        as (_ & _ & H & _)
  end.
  apply H; reflexivity.
Defined.

(** ** Request validation *)

Lemma validate_missing_text d :
  assoc "text" d = None → validate_PromptCreate (Some (VDict d)) = None.
Proof. intros H. unfold validate_PromptCreate. by rewrite H. Qed.

(** C5, as amended (validation before store access). A create request
    with no body, or whose body has no [text] field, is answered with 422
    and the world is untouched: no session is opened and no transaction
    runs. An empty [text] is not rejected: the endpoint body runs, opens
    its session and runs its transaction. *)
Theorem missing_input_rejected_before_store run query body ev w :
  (body = None ∨ (∃ d, body = Some (VDict d) ∧ assoc "text" d = None) →
   serve run (Request "POST" "/prompts" query body) ev w = (unprocessable, w)) ∧
  resp_status unprocessable = 422 ∧
  (let r := serve run (Request "POST" "/prompts" query (Some (VDict [("text", VStr "")])))
              ev w in
   r = respond (create_prompt run {| pc_text := ""; pc_source := None; pc_tags := None |}
                  ev w) ∧
   w_sessions r.2 = S (w_sessions w) ∧ w_transactions r.2 = S (w_transactions w)).
Proof.
  split_and!.
  - intros [->|(d & -> & Hd)].
    + reflexivity.
    + change (serve run (Request "POST" "/prompts" query (Some (VDict d))) ev w)
        with (match validate_PromptCreate (Some (VDict d)) with
              | None => (unprocessable, w)
              | Some prompt => respond (create_prompt run prompt ev w)
              end).
      by rewrite validate_missing_text.
  - reflexivity.
  - cbn zeta. split; [reflexivity|].
    change (serve run (Request "POST" "/prompts" query (Some (VDict [("text", VStr "")])))
              ev w)
      with (respond (create_prompt run
                       {| pc_text := ""; pc_source := None; pc_tags := None |} ev w)).
    unfold respond, create_prompt, write_transaction, run_transaction, open_session.
    cbn [w_db w_sessions w_transactions].
    destruct (_create_prompt run _ _ _ _ _) as [a s|e s]; [|done].
    destruct (tick s); done.
Qed.

(** C5 as amended, on requests that lack the required input. *)
Lemma missing_input_rejected_before_store_witness :
  let run := neo4j_run substring_engine in
  serve run (Request "POST" "/prompts" [] (Some (VDict [("source", VStr "user")])))
    (Env "u" None) fresh_world = (unprocessable, fresh_world) ∧
  serve run (Request "POST" "/prompts" [] None) (Env "u" None) fresh_world
    = (unprocessable, fresh_world).
Proof.
  cbn zeta. split.
  - apply (missing_input_rejected_before_store (neo4j_run substring_engine) []
             (Some (VDict [("source", VStr "user")])) (Env "u" None) fresh_world).
    right. eexists. split; reflexivity.
  - apply (missing_input_rejected_before_store (neo4j_run substring_engine) []
             None (Env "u" None) fresh_world).
    by left.
Defined.

(** C5, counterexample: a create request with an empty text is accepted
    and written; a session is opened and a transaction runs. *)
Lemma empty_input_reaches_store :
  let run := neo4j_run substring_engine in
  let r := serve run (Request "POST" "/prompts" [] (Some (VDict [("text", VStr "")])))
             (Env "u" None) fresh_world in
  r.1 = Response 200 (VDict [("id", VStr "u")]) ∧
  w_sessions r.2 = 1 ∧ w_transactions r.2 = 1 ∧
  g_nodes (w_db r.2) = [Node 0 Prompt [("id", "u"); ("text", "")]].
Proof. cbn zeta. split_and!; by vm_compute. Qed.

(** * Further properties of the service *)

(** ** Sessions, and what reads leave behind *)

Lemma run_transaction_counters {A} (work : TxM A) fault w :
  w_sessions (run_transaction work fault w).2 = w_sessions w ∧
  w_transactions (run_transaction work fault w).2 = S (w_transactions w).
Proof.
  unfold run_transaction. destruct (work _) as [a s|e s]; [|done].
  by destruct (tick s).
Qed.

Lemma run_transaction_inl {A} (work : TxM A) fault w e :
  (run_transaction work fault w).1 = inl e →
  w_db (run_transaction work fault w).2 = w_db w.
Proof.
  unfold run_transaction. destruct (work _) as [a s|e' s]; [|done].
  by destruct (tick s).
Qed.

Lemma run_transaction_inr {A} (work : TxM A) fault w a :
  (run_transaction work fault w).1 = inr a →
  ∃ s, work (TxState (w_db w) fault) = Done a s ∧
       w_db (run_transaction work fault w).2 = tx_work s.
Proof.
  unfold run_transaction. destruct (work _) as [a' s|e' s]; [|done].
  destruct (tick s) as [u s'|e' s'] eqn:Ht; [|done].
  cbn. intros H. injection H as <-. exists s. split; [done|]. by eapply tick_done.
Qed.

(** X1. The get endpoint is read-only: whatever the identifier, the state
    of the store and the faults, the committed graph is after the call what
    it was before; the call opens one session and runs one transaction. *)
Theorem get_is_read_only E id ev w :
  (get_prompt (neo4j_run E) id ev w).2 = counted w (w_db w).
Proof.
  pose proof (get_prompt_keeps_db E id ev w) as Hdb. revert Hdb.
  unfold get_prompt. rewrite read_transaction_get.
  pose proof (run_transaction_counters (_get_prompt (neo4j_run E) id) (e_fault ev)
                (open_session w)) as [Hs Ht].
  destruct (run_transaction _ _ _) as [[e|a] [g n m]]; cbn in *.
  - intros ->. unfold counted. by rewrite Hs, Ht.
  - destruct (truthy a); cbn; intros ->; unfold counted; by rewrite Hs, Ht.
Qed.

(** X2. Search changes nothing in the store but the index: nodes,
    relationships and the allocation counter are as before. When it
    returns, the committed graph is the old one with the index ensured;
    when it raises, the committed graph is the old one. *)
Theorem search_touches_only_the_index E q ev w :
  let r := search_prompts (neo4j_run E) q ev w in
  g_nodes (w_db r.2) = g_nodes (w_db w) ∧
  g_rels (w_db r.2) = g_rels (w_db w) ∧
  g_next (w_db r.2) = g_next (w_db w) ∧
  (∀ v, r.1 = Return v → w_db r.2 = ensure_index (w_db w)) ∧
  (∀ e, r.1 = Raised e → w_db r.2 = w_db w).
Proof.
  cbn zeta. rewrite search_prompts_keeps_db. split_and!; try done.
  intros v Hv. destruct (has_index "promptTextIndex" (w_db w)) eqn:Hix.
  - by rewrite ensure_index_present.
  - destruct (search_prompts_absent E q ev w Hix) as (e & Hr & _).
    by rewrite Hr in Hv.
Qed.

(** X3. Every call of an endpoint, on any transaction backend and whatever
    its outcome (a result, a 404 or a raised error), opens exactly one
    session and runs exactly one transaction. *)
Theorem one_session_per_call run o ev w :
  w_sessions (step run o ev w).2 = S (w_sessions w) ∧
  w_transactions (step run o ev w).2 = S (w_transactions w).
Proof.
  destruct o as [prompt|id|q]; cbn [step];
    unfold create_prompt, get_prompt, search_prompts, write_transaction, read_transaction.
  - pose proof (run_transaction_counters
      (_create_prompt run (e_uuid ev) (pc_text prompt) (pc_source prompt)
         (or_empty (pc_tags prompt))) (e_fault ev) (open_session w)) as H.
    by destruct (run_transaction _ _ _) as [[e|a] w'].
  - pose proof (run_transaction_counters (_get_prompt (read_only run) id) (e_fault ev)
                  (open_session w)) as H.
    destruct (run_transaction _ _ _) as [[e|a] w']; [done|]. by destruct (truthy a).
  - pose proof (run_transaction_counters (_search_prompts (read_only run) q) (e_fault ev)
                  (open_session w)) as H.
    by destruct (run_transaction _ _ _) as [[e|a] w'].
Qed.

(** ** Nothing is deleted *)

Lemma ensure_index_le g : graph_le g (ensure_index g).
Proof. unfold ensure_index. by destruct (has_index _ g). Qed.

Lemma step_le E o ev w : graph_le (w_db w) (w_db (step (neo4j_run E) o ev w).2).
Proof.
  destruct o as [prompt|id|q]; cbn [step].
  - destruct (create_prompt_cases E prompt ev w) as [[e ->]| ->]; cbn [snd w_db];
      [done|apply created_le].
  - by rewrite get_prompt_keeps_db.
  - destruct (search_prompts_db_after E q ev w) as [-> | ->];
      [done|apply ensure_index_le].
Qed.

(** X4. The store only grows: after any sequence of operations, under any
    faults, every node (with its label and properties) and every
    relationship that was in the store is still there. The service has no
    way to update or delete. *)
Theorem store_only_grows E ops w :
  graph_le (w_db w) (w_db (run_ops (neo4j_run E) ops w)).
Proof.
  revert w. induction ops as [|[o ev] ops IH]; intros w; [done|].
  cbn. etrans; [apply (step_le E o ev w)|apply IH].
Qed.

(** ** What a fault can do *)

Lemma fs_ret {A} (a : A) : fault_or_same (mret a).
Proof. intros g b e s' H. discriminate. Qed.

Lemma fs_raise {A} e : fault_or_same (@raise A e).
Proof. intros g b e' s' H. injection H as <- <-. right. by eexists. Qed.

Lemma fs_tick : fault_or_same tick.
Proof.
  intros g b e s'. unfold tick. cbn.
  destruct b as [[|k]|]; intros H; try discriminate. injection H as <- <-. by left.
Qed.

Lemma fs_get_graph : fault_or_same get_graph.
Proof. intros g b e s' H. discriminate. Qed.

Lemma fs_put_graph g0 : fault_or_same (put_graph g0).
Proof. intros g b e s' H. discriminate. Qed.

Lemma fs_bind {A B} (m : TxM A) (f : A → TxM B) :
  fault_insensitive m → fault_or_same m →
  (∀ a, fault_or_same (f a)) →
  fault_or_same (m ≫= f).
Proof.
  intros Hfi Hm Hf g b e s'. unfold mbind, TxM_bind.
  destruct (m (TxState g b)) as [a [g1 b1]|e1 s1] eqn:H1.
  - intros H2. apply Hfi in H1. cbn in H1. rewrite H1.
    apply (Hf a) in H2. exact H2.
  - intros H. injection H as <- <-.
    destruct (Hm _ _ _ _ H1) as [?|[s'' Hs]]; [by left|].
    right. exists s''. by rewrite Hs.
Qed.

Lemma fs_foreach {A} (l : list A) body :
  (∀ x, fault_insensitive (body x)) → (∀ x, fault_or_same (body x)) →
  fault_or_same (cy_foreach l body).
Proof.
  intros Hfi Hb. induction l as [|x l IH]; cbn [cy_foreach].
  - apply fs_ret.
  - apply fs_bind; [apply Hfi|apply Hb|intros _; apply IH].
Qed.

Lemma fs_mapM {A B} (f : A → TxM B) (l : list A) :
  (∀ x, fault_insensitive (f x)) → (∀ x, fault_or_same (f x)) →
  fault_or_same (mapM f l).
Proof.
  intros Hfi Hf. induction l as [|x l IH]; cbn [mapM].
  - apply fs_ret.
  - apply fs_bind; [apply Hfi|apply Hf|intros y].
    apply fs_bind; [by apply fi_mapM|apply IH|intros k; apply fs_ret].
Qed.

Create HintDb fs discriminated.

Ltac fs_solve :=
  repeat match goal with
    | |- fault_or_same (mret _) => apply fs_ret
    | |- fault_or_same (raise _) => apply fs_raise
    | |- fault_or_same tick => apply fs_tick
    | |- fault_or_same get_graph => apply fs_get_graph
    | |- fault_or_same (put_graph _) => apply fs_put_graph
    | |- fault_or_same (_ ≫= _) => apply fs_bind; [| |intros ?]
    | |- fault_or_same (cy_foreach _ _) => apply fs_foreach; intros ?
    | |- fault_or_same (mapM _ _) => apply fs_mapM; intros ?
    | |- fault_or_same (match ?x with _ => _ end) => destruct x
    | |- fault_insensitive _ => solve [fi_solve]
    | |- fault_or_same _ => solve [auto with fs nocore]
    end.

Lemma fs_cy_create l m : fault_or_same (cy_create l m).
Proof. unfold cy_create. fs_solve. Qed.

Lemma fs_cy_match l k v : fault_or_same (cy_match l k v).
Proof. unfold cy_match. fs_solve. Qed.

#[local] Hint Resolve fs_cy_create fs_cy_match : fs.

Lemma fs_cy_merge_node l k v : fault_or_same (cy_merge_node l k v).
Proof. unfold cy_merge_node. fs_solve. Qed.

Lemma fs_cy_merge_rel a ty b : fault_or_same (cy_merge_rel a ty b).
Proof. unfold cy_merge_rel. fs_solve. Qed.

#[local] Hint Resolve fs_cy_merge_node fs_cy_merge_rel : fs.

Lemma fs_cypher_create id text source tags :
  fault_or_same (cypher_create id text source tags).
Proof. unfold cypher_create. fs_solve. Qed.

Lemma fi_cy_optional_match_out a ty l : fault_insensitive (cy_optional_match_out a ty l).
Proof. unfold cy_optional_match_out. fi_solve. Qed.

Lemma fs_cy_optional_match_out a ty l : fault_or_same (cy_optional_match_out a ty l).
Proof. unfold cy_optional_match_out. fs_solve. Qed.

#[local] Hint Resolve fi_cy_optional_match_out : fi.
#[local] Hint Resolve fs_cy_optional_match_out : fs.

Lemma fs_cypher_get id : fault_or_same (cypher_get id).
Proof. unfold cypher_get. fs_solve. Qed.

Lemma fs_cypher_index : fault_or_same cypher_index.
Proof. unfold cypher_index, cy_create_fulltext_index. fs_solve. Qed.

Lemma fi_cy_fulltext_query E name q : fault_insensitive (cy_fulltext_query E name q).
Proof. unfold cy_fulltext_query. fi_solve. Qed.

Lemma fs_cy_fulltext_query E name q : fault_or_same (cy_fulltext_query E name q).
Proof. unfold cy_fulltext_query. fs_solve. Qed.

#[local] Hint Resolve fi_cy_fulltext_query : fi.
#[local] Hint Resolve fs_cy_fulltext_query : fs.

Lemma fs_cypher_search E q : fault_or_same (cypher_search E q).
Proof. unfold cypher_search. fs_solve. Qed.

#[local] Hint Resolve fs_cypher_create fs_cypher_get fs_cypher_index fs_cypher_search : fs.

Lemma fs_neo4j_run E query params : fault_or_same (neo4j_run E query params).
Proof.
  unfold neo4j_run, param_str, param_opt_str, param_str_list.
  repeat case_decide; fs_solve.
Qed.

#[local] Hint Resolve fi_neo4j_run : fi.
#[local] Hint Resolve fs_neo4j_run : fs.

Lemma fs_create_prompt E prompt_id text source tags :
  fault_or_same (_create_prompt (neo4j_run E) prompt_id text source tags).
Proof. unfold _create_prompt, single, getitem. fs_solve. Qed.

Lemma fs_get_prompt E prompt_id : fault_or_same (_get_prompt (neo4j_run E) prompt_id).
Proof.
  unfold _get_prompt, single, node_getitem, node_get, getitem. fs_solve.
Qed.

Lemma fs_search_prompts E q : fault_or_same (_search_prompts (neo4j_run E) q).
Proof. unfold _search_prompts, search_hit, getitem. fs_solve. Qed.

Lemma run_transaction_fault_cases {A} (work : TxM A) fault w :
  fault_insensitive work → fault_or_same work →
  run_transaction work fault w
    = (inl ServiceUnavailable, World (w_db w) (w_sessions w) (S (w_transactions w)))
  ∨ run_transaction work fault w = run_transaction work None w.
Proof.
  intros Hfi Hfs. unfold run_transaction.
  destruct (work (TxState (w_db w) fault)) as [a [g' b']|e s] eqn:Hw.
  - apply Hfi in Hw. cbn in Hw. rewrite Hw. unfold tick. cbn.
    destruct b' as [[|k]|]; auto.
  - destruct (Hfs _ _ _ _ Hw) as [->|[s'' Hs]]; [by left|].
    right. by rewrite Hs.
Qed.

(** A lost connection makes get raise; otherwise get answers as it does
    with the connection up. *)
Lemma get_fault_cases E id ev w :
  get_prompt (neo4j_run E) id ev w = (Raised ServiceUnavailable, counted w (w_db w))
  ∨ get_prompt (neo4j_run E) id ev w = get_prompt (neo4j_run E) id (no_fault ev) w.
Proof.
  unfold get_prompt, no_fault. rewrite !read_transaction_get. cbn [e_uuid e_fault].
  destruct (run_transaction_fault_cases (_get_prompt (neo4j_run E) id) (e_fault ev)
              (open_session w)) as [-> | ->];
    [apply fi_get_prompt, fi_neo4j_run|apply fs_get_prompt|by left|by right].
Qed.

(** ** What get returns for a node it finds *)

Lemma assoc_fmap_VStr k (props : list (string * string)) :
  assoc k (map (λ kv, (kv.1, VStr kv.2)) props) = VStr <$> assoc k props.
Proof.
  induction props as [|[k' v] props IH]; [done|].
  cbn. by case_decide.
Qed.

Lemma _get_prompt_found E id g p ps :
  find_nodes Prompt "id" id g = p :: ps →
  _get_prompt (neo4j_run E) id (TxState g None)
  = match prompt_record g p with
    | inr v => Done v (TxState g None)
    | inl e => Failed e (TxState g None)
    end.
Proof.
  intros Hf. unfold _get_prompt. rewrite neo4j_run_get.
  erewrite bind_Done; [|apply (cypher_get_ok id g)]. rewrite Hf.
  cbn [fmap list_fmap single head get_row].
  erewrite bind_Done; [|reflexivity].
  unfold node_value, node_getitem, node_get, getitem, prompt_record, prop_value, prop.
  rewrite !assoc_fmap_VStr.
  destruct (assoc "id" (node_props p)) as [i|]; [|done].
  destruct (assoc "text" (node_props p)) as [t|]; [|done].
  by destruct (assoc "source" (node_props p)).
Qed.

Lemma get_prompt_found E id ev w p ps :
  find_nodes Prompt "id" id (w_db w) = p :: ps →
  e_fault ev = None →
  get_prompt (neo4j_run E) id ev w
  = (match prompt_record (w_db w) p with
     | inr v => Return v
     | inl e => Raised e
     end, counted w (w_db w)).
Proof.
  intros Hf Hev. pose proof (_get_prompt_found E id (w_db w) p ps Hf) as Hg.
  unfold get_prompt. rewrite read_transaction_get. unfold run_transaction. rewrite Hev.
  cbn [open_session w_db w_sessions w_transactions]. rewrite Hg.
  unfold prompt_record.
  destruct (prop p "id"); [|done]. by destruct (prop p "text").
Qed.

(** X6. The record of a found prompt needs its [id] and [text]: on a
    Prompt node that has no [text] property get raises KeyError and the
    caller gets a 500, the store unchanged; a missing [source] is no error
    and is returned as null. *)
Theorem get_needs_text_not_source E id ev w p ps i :
  find_nodes Prompt "id" id (w_db w) = p :: ps →
  prop p "id" = Some i →
  e_fault ev = None →
  (prop p "text" = None →
   get_prompt (neo4j_run E) id ev w = (Raised (KeyError "text"), counted w (w_db w)) ∧
   resp_status (respond (get_prompt (neo4j_run E) id ev w)).1 = 500) ∧
  (∀ t, prop p "text" = Some t → prop p "source" = None →
   (get_prompt (neo4j_run E) id ev w).1
   = Return (VDict [("id", VStr i); ("text", VStr t); ("source", VNull);
                    ("tags", VList (VStr <$> tags_of p (w_db w)))])).
Proof.
  intros Hf Hi Hev. rewrite (get_prompt_found E id ev w p ps Hf Hev).
  unfold prompt_record, prop_value. rewrite Hi. split.
  - by intros ->.
  - by intros t -> ->.
Qed.

(** X6, on a store holding a Prompt node without text, and one without
    source. *)
Lemma get_needs_text_not_source_witness :
  let bare := Node 0 Prompt [("id", "a")] in
  let plain := Node 1 Prompt [("id", "b"); ("text", "hello")] in
  let w := World (Graph [bare; plain] [] 2 []) 0 0 in
  (get_prompt (neo4j_run substring_engine) "a" (Env "u" None) w).1
    = Raised (KeyError "text") ∧
  (get_prompt (neo4j_run substring_engine) "b" (Env "u" None) w).1
    = Return (VDict [("id", VStr "b"); ("text", VStr "hello"); ("source", VNull);
                     ("tags", VList [])]).
Proof.
  cbn zeta. split.
  - destruct (get_needs_text_not_source substring_engine "a" (Env "u" None)
                (World (Graph [Node 0 Prompt [("id", "a")];
                               Node 1 Prompt [("id", "b"); ("text", "hello")]] [] 2 []) 0 0)
                (Node 0 Prompt [("id", "a")]) [] "a" eq_refl eq_refl eq_refl) as [H _].
    destruct (H eq_refl) as [-> _]. reflexivity.
  - destruct (get_needs_text_not_source substring_engine "b" (Env "u" None)
                (World (Graph [Node 0 Prompt [("id", "a")];
                               Node 1 Prompt [("id", "b"); ("text", "hello")]] [] 2 []) 0 0)
                (Node 1 Prompt [("id", "b"); ("text", "hello")]) [] "b"
                eq_refl eq_refl eq_refl) as [_ H].
    rewrite (H "hello" eq_refl eq_refl). reflexivity.
Defined.

(** ** The shape of what the service stores *)

Lemma node_ok_new_prompt id text source g : node_ok (new_prompt id text source g).1.
Proof.
  unfold node_ok, new_prompt, prop. cbn. split; [by eexists|].
  rewrite decide_False by done. by eexists.
Qed.

Lemma link_tag_schema_ok p g tag : schema_ok g → schema_ok (link_tag p g tag).
Proof.
  unfold schema_ok, link_tag. rewrite foldl_merge_rel_nodes.
  unfold merge_node. destruct (find_nodes Tag "name" tag g); [|done].
  intros H. cbn. apply Forall_app. split; [done|]. apply Forall_singleton.
  unfold node_ok, prop. cbn. by eexists.
Qed.

Lemma created_schema_ok id text source tags g :
  schema_ok g → schema_ok (created id text source tags g).
Proof.
  intros H. unfold created.
  assert (schema_ok (new_prompt id text source g).2) as H0.
  { unfold schema_ok. cbn. apply Forall_app. split; [done|].
    apply Forall_singleton, node_ok_new_prompt. }
  revert H0. generalize (new_prompt id text source g).2.
  induction tags as [|tag tags IH]; intros g0 H0; [done|].
  cbn. by apply IH, link_tag_schema_ok.
Qed.

Lemma run_ops_schema_ok E ops w :
  schema_ok (w_db w) → schema_ok (w_db (run_ops (neo4j_run E) ops w)).
Proof.
  revert w. induction ops as [|[o ev] ops IH]; intros w H; [done|].
  cbn. apply IH. destruct o as [prompt|id|q]; cbn [step fst snd].
  - destruct (create_prompt_cases E prompt ev w) as [[e ->]| ->]; cbn [snd w_db];
      [done|by apply created_schema_ok].
  - by rewrite get_prompt_keeps_db.
  - unfold schema_ok.
    by destruct (search_prompts_db_after E q ev w) as [-> | ->];
      rewrite ?ensure_index_nodes.
Qed.

(** X7. On the stores the service builds, get cannot break: starting from
    a store whose Prompt nodes have [id] and [text] and whose Tag nodes have
    [name] (the empty store is one), after any sequence of operations under
    any faults, get answers with a record or with the 404, or raises
    ServiceUnavailable on a lost connection; it never raises KeyError or
    TypeError. *)
Theorem get_cannot_break E ops id ev w :
  schema_ok (w_db w) →
  let r := get_prompt (neo4j_run E) id ev (run_ops (neo4j_run E) ops w) in
  (∃ v, r.1 = Return v) ∨
  r.1 = HTTPException 404 "Prompt not found" ∨
  r.1 = Raised ServiceUnavailable.
Proof.
  intros H0. cbn zeta. set (w' := run_ops (neo4j_run E) ops w).
  assert (schema_ok (w_db w')) as H by by apply run_ops_schema_ok.
  destruct (get_fault_cases E id ev w') as [Hf|Hf]; rewrite Hf; [by right; right|].
  destruct (find_nodes Prompt "id" id (w_db w')) as [|p ps] eqn:Hfind.
  - right; left. by rewrite get_prompt_absent.
  - left. rewrite (get_prompt_found E id (no_fault ev) w' p ps Hfind eq_refl).
    assert (p ∈ g_nodes (w_db w') ∧ node_matches Prompt "id" id p) as [Hp [Hl _]].
    { apply find_nodes_elem. rewrite Hfind. apply elem_of_cons. by left. }
    unfold schema_ok in H. rewrite Forall_forall in H. apply H in Hp.
    unfold node_ok in Hp. rewrite Hl in Hp. destruct Hp as [[i Hi] [t Ht]].
    unfold prompt_record. rewrite Hi, Ht. by eexists.
Qed.

(** X7, from the empty store. *)
Lemma get_cannot_break_witness :
  let run := neo4j_run substring_engine in
  let ops := [(Create {| pc_text := "a robot"; pc_source := None; pc_tags := Some ["x"] |},
               Env "u" None); (Search "robot", Env "v" (Some 1))] in
  let r := get_prompt run "u" (Env "w" (Some 7)) (run_ops run ops fresh_world) in
  (∃ v, r.1 = Return v) ∨
  r.1 = HTTPException 404 "Prompt not found" ∨
  r.1 = Raised ServiceUnavailable.
Proof.
  cbn zeta. apply get_cannot_break. apply Forall_nil_2.
Defined.

(** ** Relationships join a prompt to a tag *)

Lemma rel_ok_le g g' r : g_nodes g ⊆ g_nodes g' → rel_ok g r → rel_ok g' r.
Proof.
  intros Hn (Hty & (p & Hp & Hp1 & Hp2) & (t & Ht & Ht1 & Ht2)).
  split; [done|]. split; [exists p|exists t]; split_and!; auto.
Qed.

Lemma rels_typed_nodes g g' :
  g_nodes g ⊆ g_nodes g' → g_rels g' = g_rels g → rels_typed g → rels_typed g'.
Proof.
  unfold rels_typed. intros Hn -> H. eapply Forall_impl; [exact H|].
  intros r. by apply rel_ok_le.
Qed.

Lemma foldl_merge_rel_typed p ts g :
  p ∈ g_nodes g → node_label p = Prompt →
  (∀ t, t ∈ ts → t ∈ g_nodes g ∧ node_label t = Tag) →
  rels_typed g → rels_typed (foldl (merge_rel p "HAS_TAG") g ts).
Proof.
  intros Hp Hl. revert g Hp. induction ts as [|t ts IH]; intros g Hp Hts H; [done|].
  cbn [foldl]. destruct (Hts t) as [Ht Htl]; [apply elem_of_cons; by left|].
  apply IH.
  - by rewrite merge_rel_nodes.
  - intros t' Ht'. rewrite merge_rel_nodes. apply Hts, elem_of_cons. by right.
  - unfold merge_rel. destruct (has_rel _ g); [done|].
    unfold rels_typed, add_rel. cbn [g_rels]. apply Forall_app. split.
    + eapply Forall_impl; [exact H|]. intros r. by apply rel_ok_le.
    + apply Forall_singleton. split_and!; [done|by exists p|by exists t].
Qed.

Lemma link_tag_typed p g tag :
  p ∈ g_nodes g → node_label p = Prompt →
  rels_typed g → rels_typed (link_tag p g tag).
Proof.
  intros Hp Hl H. unfold link_tag.
  destruct (merge_node_bound Tag "name" tag g) as [_ Hts].
  destruct (merge_node_le Tag "name" tag g) as [Hn _].
  apply foldl_merge_rel_typed; [by apply Hn|done| |].
  - intros t Ht. destruct (Hts t Ht) as [? [? _]]. done.
  - apply (rels_typed_nodes g); [exact Hn|apply merge_node_rels|done].
Qed.

Lemma created_typed id text source tags g :
  rels_typed g → rels_typed (created id text source tags g).
Proof.
  intros H. unfold created.
  set (p := (new_prompt id text source g).1).
  assert (rels_typed (new_prompt id text source g).2) as H0.
  { apply (rels_typed_nodes g); [|reflexivity|exact H]. cbn.
    intros x Hx. apply elem_of_app. by left. }
  assert (p ∈ g_nodes (new_prompt id text source g).2) as Hp by apply add_node_elem.
  revert H0 Hp. generalize (new_prompt id text source g).2.
  induction tags as [|tag tags IH]; intros g0 H0 Hp; [done|].
  cbn [foldl]. apply IH.
  - by apply link_tag_typed.
  - by apply (link_tag_le p g0 tag).
Qed.

Lemma ensure_index_typed g : rels_typed g → rels_typed (ensure_index g).
Proof. unfold ensure_index. by destruct (has_index _ g). Qed.

(** X8. Every relationship the service writes is a HAS_TAG from a Prompt
    node to a Tag node: from a store of which this holds (the empty store
    is one), it holds after any sequence of operations under any faults. *)
Theorem relationships_join_prompt_to_tag E ops w :
  rels_typed (w_db w) → rels_typed (w_db (run_ops (neo4j_run E) ops w)).
Proof.
  revert w. induction ops as [|[o ev] ops IH]; intros w H; [done|].
  cbn. apply IH. destruct o as [prompt|id|q]; cbn [step fst snd].
  - destruct (create_prompt_cases E prompt ev w) as [[e ->]| ->]; cbn [snd w_db];
      [done|by apply created_typed].
  - by rewrite get_prompt_keeps_db.
  - destruct (search_prompts_db_after E q ev w) as [-> | ->];
      [done|by apply ensure_index_typed].
Qed.

(** X8, from the empty store. *)
Lemma relationships_join_prompt_to_tag_witness :
  let run := neo4j_run substring_engine in
  let ops := [(Create {| pc_text := "a"; pc_source := None; pc_tags := Some ["x"; "y"] |},
               Env "u" None);
              (Create {| pc_text := "b"; pc_source := None; pc_tags := Some ["y"] |},
               Env "v" None)] in
  length (g_rels (w_db (run_ops run ops fresh_world))) = 3 ∧
  rels_typed (w_db (run_ops run ops fresh_world)).
Proof.
  cbn zeta. split; [reflexivity|].
  apply relationships_join_prompt_to_tag. apply Forall_nil_2.
Defined.

(** ** Identifiers in the store are identifiers that were issued *)

Lemma prompt_ids_link_tag p g tag : prompt_ids (link_tag p g tag) = prompt_ids g.
Proof.
  unfold prompt_ids, link_tag. rewrite foldl_merge_rel_nodes.
  unfold merge_node. destruct (find_nodes Tag "name" tag g); [|done].
  cbn. rewrite omap_app. cbn. by rewrite app_nil_r.
Qed.

Lemma prompt_ids_created id text source tags g :
  prompt_ids (created id text source tags g) = prompt_ids g ++ [id].
Proof.
  unfold created.
  assert (prompt_ids (new_prompt id text source g).2 = prompt_ids g ++ [id]) as <-.
  { unfold prompt_ids. cbn. rewrite omap_app. f_equal. }
  generalize (new_prompt id text source g).2.
  induction tags as [|tag tags IH]; intros g0; [done|].
  cbn [foldl]. by rewrite IH, prompt_ids_link_tag.
Qed.

Lemma find_nodes_not_issued id g :
  id ∉ prompt_ids g → find_nodes Prompt "id" id g = [].
Proof.
  intros Hn. destruct (find_nodes Prompt "id" id g) as [|n ns] eqn:Hf; [done|].
  exfalso. apply Hn.
  assert (n ∈ g_nodes g ∧ node_matches Prompt "id" id n) as [Hin [Hl Hp]].
  { apply find_nodes_elem. rewrite Hf. apply elem_of_cons. by left. }
  unfold prompt_ids. apply list_elem_of_omap. exists n. split; [done|].
  by rewrite decide_True.
Qed.

Lemma prompt_ids_run_ops E ops w x :
  x ∈ prompt_ids (w_db (run_ops (neo4j_run E) ops w)) →
  x ∈ prompt_ids (w_db w) ∨ x ∈ issued ops.
Proof.
  revert w. induction ops as [|[o ev] ops IH]; intros w; [by left|].
  cbn [run_ops foldl]. intros Hx. apply IH in Hx as [Hx|Hx].
  - unfold issued. cbn [omap list_omap fst snd]. cbn [fst snd] in Hx.
    destruct o as [prompt|id|q]; cbn [step] in Hx.
    + destruct (create_prompt_cases E prompt ev w) as [[e He]|He];
        rewrite He in Hx; cbn [snd w_db] in Hx; [by left|].
      rewrite prompt_ids_created in Hx. apply elem_of_app in Hx as [?|Hx]; [by left|].
      apply list_elem_of_singleton in Hx as ->. right. apply elem_of_cons. by left.
    + rewrite get_prompt_keeps_db in Hx. by left.
    + left. unfold prompt_ids in *.
      destruct (search_prompts_db_after E q ev w) as [Hd|Hd]; rewrite Hd in Hx;
        by rewrite ?ensure_index_nodes in Hx.
  - right. unfold issued in *. cbn [omap list_omap fst snd].
    destruct o; [apply elem_of_cons; by right|done|done].
Qed.

(** X9. An identifier that no create call drew is not found: if no Prompt
    node of the initial store carries it and it is not among the
    identifiers drawn by the create operations of a sequence, then after
    the sequence, under any faults, get answers it with the 404. *)
Theorem unissued_id_is_not_found E ops id ev w :
  id ∉ prompt_ids (w_db w) →
  id ∉ issued ops →
  e_fault ev = None →
  (get_prompt (neo4j_run E) id ev (run_ops (neo4j_run E) ops w)).1
  = HTTPException 404 "Prompt not found".
Proof.
  intros H0 Hops Hev. rewrite get_prompt_absent; [done| |done].
  apply find_nodes_not_issued. intros Hx.
  by apply prompt_ids_run_ops in Hx as [?|?].
Qed.

(** X9, after two creates. *)
Lemma unissued_id_is_not_found_witness :
  let run := neo4j_run substring_engine in
  let ops := [(Create {| pc_text := "a"; pc_source := None; pc_tags := None |},
               Env "u1" None);
              (Create {| pc_text := "b"; pc_source := None; pc_tags := None |},
               Env "u2" (Some 0))] in
  (get_prompt run "u3" (Env "e" None) (run_ops run ops fresh_world)).1
  = HTTPException 404 "Prompt not found".
Proof.
  cbn zeta. apply unissued_id_is_not_found; [|vm_compute|reflexivity].
  - apply not_elem_of_nil.
  - intros H. repeat (apply elem_of_cons in H as [H|H]; [discriminate|]).
    by apply elem_of_nil in H.
Defined.

(** ** A stored prompt stays as it is *)

Lemma tags_of_foldl_merge_rel_other p q ts g :
  node_id q ≠ node_id p →
  tags_of q (foldl (merge_rel p "HAS_TAG") g ts) = tags_of q g.
Proof.
  intros Hne. revert g. induction ts as [|t ts IH]; intros g; [done|].
  cbn [foldl]. rewrite IH. unfold merge_rel. destruct (has_rel _ g); [done|].
  unfold tags_of. rewrite out_neighbours_add_rel. cbn [rel_src rel_type].
  rewrite decide_False; [by rewrite app_nil_r|]. intros [? _]. by apply Hne.
Qed.

Lemma tags_of_link_tag_other p q g tag :
  Forall (λ r, rel_dst r < g_next g) (g_rels g) →
  node_id q ≠ node_id p →
  tags_of q (link_tag p g tag) = tags_of q g.
Proof.
  intros Hb Hne. unfold link_tag. rewrite tags_of_foldl_merge_rel_other by done.
  unfold merge_node. destruct (find_nodes Tag "name" tag g); [|done].
  cbn [snd]. unfold tags_of. by rewrite out_neighbours_add_node.
Qed.

Lemma graph_wf_dst g : graph_wf g → Forall (λ r, rel_dst r < g_next g) (g_rels g).
Proof.
  intros (_ & _ & Hr & _). eapply Forall_impl; [exact Hr|]. by intros r [_ ?].
Qed.

Lemma tags_of_foldl_link_tag_other p q tags seen g :
  linking p seen g → node_id q ≠ node_id p →
  tags_of q (foldl (link_tag p) g tags) = tags_of q g.
Proof.
  intros Hl Hne. revert seen g Hl. induction tags as [|tag tags IH]; intros seen g Hl;
    [done|].
  cbn [foldl]. rewrite (IH (seen ++ [tag])) by by apply linking_step.
  apply tags_of_link_tag_other; [|done]. apply graph_wf_dst. by destruct Hl.
Qed.

Lemma tags_of_created_old id text source tags g q :
  graph_wf g → q ∈ g_nodes g →
  tags_of q (created id text source tags g) = tags_of q g.
Proof.
  intros Hwf Hq. unfold created.
  assert (node_id q ≠ node_id (new_prompt id text source g).1) as Hne.
  { destruct Hwf as (Hids & _). rewrite Forall_forall in Hids. apply Hids in Hq.
    cbn. lia. }
  rewrite (tags_of_foldl_link_tag_other _ q tags []); [|by apply linking_init|done].
  unfold tags_of, new_prompt. rewrite out_neighbours_add_node; [done|].
  by apply graph_wf_dst.
Qed.

(** A create that draws another identifier adds no node under this one. *)
Lemma find_nodes_created_other id' id text source tags g :
  id' ≠ id →
  find_nodes Prompt "id" id' (created id text source tags g)
  = find_nodes Prompt "id" id' g.
Proof.
  intros Hne. unfold created. rewrite find_nodes_prompt_foldl.
  unfold find_nodes. cbn [new_prompt add_node snd g_nodes].
  rewrite filter_app, filter_cons_False, filter_nil; [by rewrite app_nil_r|].
  intros [_ Hp]. revert Hp. unfold prop. cbn. rewrite decide_True by done.
  intros [= ->]. done.
Qed.

Lemma find_nodes_ensure_index l k v g :
  find_nodes l k v (ensure_index g) = find_nodes l k v g.
Proof. unfold find_nodes. by rewrite ensure_index_nodes. Qed.

Lemma tags_of_ensure_index q g : tags_of q (ensure_index g) = tags_of q g.
Proof. unfold ensure_index. by destruct (has_index _ g). Qed.

Lemma issued_cons o ev ops :
  issued ((o, ev) :: ops)
  = match o with Create _ => [e_uuid ev] | _ => [] end ++ issued ops.
Proof. by destruct o. Qed.

Lemma found_prompt_stable E ops id w q :
  graph_wf (w_db w) →
  find_nodes Prompt "id" id (w_db w) = [q] →
  id ∉ issued ops →
  let w' := run_ops (neo4j_run E) ops w in
  tags_of q (w_db w') = tags_of q (w_db w) ∧
  find_nodes Prompt "id" id (w_db w') = [q].
Proof.
  cbn zeta. revert w. induction ops as [|[o ev] ops IH]; intros w Hwf Hf Hni; [done|].
  change (run_ops (neo4j_run E) ((o, ev) :: ops) w)
    with (run_ops (neo4j_run E) ops (step (neo4j_run E) o ev w).2).
  rewrite issued_cons in Hni. apply not_elem_of_app in Hni as [Hno Hni].
  assert (graph_wf (w_db (step (neo4j_run E) o ev w).2) ∧
          tags_of q (w_db (step (neo4j_run E) o ev w).2) = tags_of q (w_db w) ∧
          find_nodes Prompt "id" id (w_db (step (neo4j_run E) o ev w).2) = [q])
    as (Hwf' & Ht & Hf').
  { assert (q ∈ g_nodes (w_db w)) as Hq.
    { apply (find_nodes_elem Prompt "id" id). rewrite Hf. apply elem_of_cons. by left. }
    destruct o as [prompt|id'|q']; cbn [step].
    - destruct (create_prompt_cases E prompt ev w) as [[e ->]| ->]; cbn [snd w_db];
        [done|].
      split_and!; [by apply created_wf|by apply tags_of_created_old|].
      rewrite find_nodes_created_other; [done|].
      intros ->. apply Hno, elem_of_cons. by left.
    - by rewrite get_prompt_keeps_db.
    - by rewrite search_prompts_keeps_db. }
  destruct (IH _ Hwf' Hf' Hni) as [Ht2 Hf2]. split; [|done]. by rewrite Ht2.
Qed.

(** X10. A stored prompt is immutable. On a well-formed store, if exactly
    one prompt carries an identifier and no later create draws that
    identifier again, then after any further sequence of operations, under
    any faults, get on that identifier gives the very same answer. *)
Theorem prompt_record_is_stable E ops id ev w q :
  graph_wf (w_db w) →
  find_nodes Prompt "id" id (w_db w) = [q] →
  id ∉ issued ops →
  e_fault ev = None →
  (get_prompt (neo4j_run E) id ev (run_ops (neo4j_run E) ops w)).1
  = (get_prompt (neo4j_run E) id ev w).1.
Proof.
  intros Hwf Hf Hni Hev.
  destruct (found_prompt_stable E ops id w q Hwf Hf Hni) as (Ht & Hf').
  rewrite (get_prompt_found E id ev _ q [] Hf' Hev).
  rewrite (get_prompt_found E id ev w q [] Hf Hev).
  unfold prompt_record. by rewrite Ht.
Qed.

(** X10, with a later create that draws another identifier and shares a
    tag, and a create that fails. *)
Lemma prompt_record_is_stable_witness :
  let run := neo4j_run substring_engine in
  let w := (create_prompt run {| pc_text := "first"; pc_source := Some "user";
                                 pc_tags := Some ["x"] |}
              (Env "u" None) fresh_world).2 in
  let ops := [(Create {| pc_text := "second"; pc_source := None;
                         pc_tags := Some ["x"; "y"] |}, Env "v" None);
              (Create {| pc_text := "third"; pc_source := None; pc_tags := None |},
               Env "w" (Some 0));
              (Get "v", Env "g" None)] in
  (get_prompt run "u" (Env "e" None) (run_ops run ops w)).1
  = Return (VDict [("id", VStr "u"); ("text", VStr "first"); ("source", VStr "user");
                   ("tags", VList [VStr "x"])]).
Proof.
  cbn zeta.
  match goal with
  | |- (get_prompt _ _ _ (run_ops _ ?ops ?w)).1 = _ =>
      rewrite (prompt_record_is_stable substring_engine ops "u" (Env "e" None) w
                 (Node 0 Prompt [("id", "u"); ("text", "first"); ("source", "user")]))
  end.
  - reflexivity.
  - rewrite create_prompt_no_fault. cbn [snd w_db]. apply created_wf, graph_wf_empty.
  - reflexivity.
  - vm_compute. intros H.
    repeat (apply elem_of_cons in H as [H|H]; [discriminate|]).
    by apply elem_of_nil in H.
  - reflexivity.
Defined.

(** ** Tag nodes a create adds *)

Lemma tag_names_link_tag p g tag :
  tag_names (link_tag p g tag)
  = tag_names g ++ match find_nodes Tag "name" tag g with [] => [tag] | _ => [] end.
Proof.
  unfold link_tag, tag_names at 1. rewrite foldl_merge_rel_nodes.
  unfold merge_node. destruct (find_nodes Tag "name" tag g);
    [|by rewrite app_nil_r].
  cbn [snd add_node g_nodes]. rewrite tag_names_app. cbn.
  unfold prop. cbn. by rewrite decide_True.
Qed.

Lemma find_nodes_tag_names v g :
  find_nodes Tag "name" v g ≠ [] → v ∈ tag_names g.
Proof.
  destruct (find_nodes Tag "name" v g) as [|n ns] eqn:Hf; [done|]. intros _.
  assert (n ∈ g_nodes g ∧ node_matches Tag "name" v n) as [Hin [Hl Hp]].
  { apply find_nodes_elem. rewrite Hf. apply elem_of_cons. by left. }
  unfold tag_names. apply list_elem_of_omap. exists n. split; [done|].
  by rewrite decide_True.
Qed.

Lemma tag_names_link_tag_elem p g tag x :
  x ∈ tag_names (link_tag p g tag) ↔ x ∈ tag_names g ∨ x = tag.
Proof.
  rewrite tag_names_link_tag, elem_of_app.
  destruct (find_nodes Tag "name" tag g) as [|n ns] eqn:Hf.
  - by rewrite list_elem_of_singleton.
  - split; [intros [?|H]; [by left|by apply elem_of_nil in H]|].
    intros [?| ->]; [by left|]. left. apply find_nodes_tag_names. by rewrite Hf.
Qed.

Lemma tag_names_created_elem id text source tags g x :
  x ∈ tag_names (created id text source tags g) ↔ x ∈ tag_names g ∨ x ∈ tags.
Proof.
  unfold created. rewrite <- (tag_names_new_prompt id text source g).
  generalize (new_prompt id text source g).2 (new_prompt id text source g).1.
  induction tags as [|tag tags IH]; intros g0 p; cbn [foldl].
  - split; [by left|]. intros [?|H]; [done|by apply elem_of_nil in H].
  - rewrite IH, tag_names_link_tag_elem, elem_of_cons. tauto.
Qed.

(** X11. A create that returns adds exactly one Tag node for each distinct
    tag name the store did not have, and none for a name it had: the Tag
    names afterwards are those before together with the new distinct names
    of the input, each once. *)
Theorem create_adds_one_tag_node_per_new_name E prompt ev w v :
  tags_unique (w_db w) →
  (create_prompt (neo4j_run E) prompt ev w).1 = Return v →
  let g' := w_db (create_prompt (neo4j_run E) prompt ev w).2 in
  let fresh := remove_dups (filter (λ x, x ∉ tag_names (w_db w))
                                   (or_empty (pc_tags prompt))) in
  tag_names g' ≡ₚ tag_names (w_db w) ++ fresh ∧
  length (tag_names g') = length (tag_names (w_db w)) + length fresh ∧
  (∀ t, t ∈ g_nodes (w_db w) → t ∈ g_nodes g').
Proof.
  intros Hu. cbn zeta.
  destruct (create_prompt_cases E prompt ev w) as [[e ->]| ->]; [done|].
  cbn [fst snd w_db]. intros _.
  set (tags := or_empty (pc_tags prompt)).
  set (g' := created _ _ _ tags (w_db w)).
  assert (tag_names g' ≡ₚ
          tag_names (w_db w) ++ remove_dups (filter (λ x, x ∉ tag_names (w_db w)) tags))
    as Hperm.
  { apply NoDup_Permutation.
    - by apply created_tags_unique.
    - apply NoDup_app. split_and!; [done| |apply NoDup_remove_dups].
      intros x Hx Hx'. apply elem_of_remove_dups, list_elem_of_filter in Hx' as [Hn _].
      done.
    - intros x. unfold g'. rewrite tag_names_created_elem, elem_of_app,
        elem_of_remove_dups, list_elem_of_filter.
      destruct (decide (x ∈ tag_names (w_db w))); tauto. }
  split_and!; [done| |apply created_le].
  by rewrite Hperm, length_app.
Qed.

(** X11, with one tag the store has and two it has not, one repeated. *)
Lemma create_adds_one_tag_node_per_new_name_witness :
  let run := neo4j_run substring_engine in
  let w := (create_prompt run {| pc_text := "a"; pc_source := None; pc_tags := Some ["x"] |}
              (Env "u" None) fresh_world).2 in
  let prompt := {| pc_text := "b"; pc_source := None;
                   pc_tags := Some ["y"; "x"; "y"; "z"] |} in
  length (tag_names (w_db (create_prompt run prompt (Env "v" None) w).2)) = 3.
Proof.
  cbn zeta.
  match goal with
  | |- length (tag_names (w_db (create_prompt _ ?p ?ev ?w).2)) = _ =>
      destruct (create_adds_one_tag_node_per_new_name substring_engine p ev w
                  (VDict [("id", VStr "v")])) as (_ & -> & _)
  end.
  - rewrite create_prompt_no_fault. cbn [snd w_db].
    apply created_tags_unique, NoDup_nil_2.
  - reflexivity.
  - reflexivity.
Defined.

(** ** What search returns *)










(** ** The service over HTTP *)

Lemma append_String_assoc cur c s : (cur +:+ String c "") +:+ s = cur +:+ String c s.
Proof.
  induction cur as [|a cur IH]; [done|].
  change (String a ((cur +:+ String c "") +:+ s) = String a (cur +:+ String c s)).
  by f_equal.
Qed.

Lemma append_empty_r (s : string) : s +:+ "" = s.
Proof.
  induction s as [|a s IH]; [done|].
  change (String a (s +:+ "") = String a s). by f_equal.
Qed.

Lemma segments_from_no_slash cur s :
  has_slash s = false → segments_from cur s = [cur +:+ s].
Proof.
  revert cur. induction s as [|c s IH]; intros cur H.
  - cbn [segments_from]. by rewrite append_empty_r.
  - cbn [has_slash] in H. apply orb_false_iff in H as [Hc Hs].
    apply bool_decide_eq_false in Hc. cbn [segments_from].
    rewrite decide_False by done.
    by rewrite IH, append_String_assoc.
Qed.

Lemma segments_from_slash cur s1 s2 :
  has_slash s1 = false →
  segments_from cur (s1 +:+ String "/" s2) = (cur +:+ s1) :: segments_from "" s2.
Proof.
  revert cur. induction s1 as [|c s1 IH]; intros cur H.
  - change ("" +:+ String "/" s2) with (String "/" s2). cbn [segments_from].
    rewrite decide_True by done. by rewrite append_empty_r.
  - cbn [has_slash] in H. apply orb_false_iff in H as [Hc Hs].
    apply bool_decide_eq_false in Hc.
    change (String c s1 +:+ String "/" s2) with (String c (s1 +:+ String "/" s2)).
    cbn [segments_from]. rewrite decide_False by done.
    by rewrite IH, append_String_assoc.
Qed.

Lemma path_segments_prompt id :
  has_slash id = false → path_segments ("/prompts/" +:+ id) = Some ["prompts"; id].
Proof.
  intros H.
  change ("/prompts/" +:+ id) with (String "/" ("prompts" +:+ String "/" id)).
  unfold path_segments. rewrite decide_True by done.
  rewrite segments_from_slash by by vm_compute.
  by rewrite segments_from_no_slash.
Qed.

Lemma dispatch_prompt_path method id :
  has_slash id = false → id ≠ "" →
  dispatch app_routes method ("/prompts/" +:+ id)
  = if decide (method = "GET") then Dispatch EP_get_prompt [("prompt_id", id)]
    else MethodNotAllowed.
Proof.
  intros Hs Hne. unfold dispatch. rewrite path_segments_prompt by done.
  unfold app_routes. cbn [first_match]. unfold route_matches.
  cbn [rt_path rt_methods rt_endpoint match_path].
  rewrite !decide_True by done. rewrite decide_False by done. cbn [mbind option_bind].
  destruct (decide (method = "GET")) as [->|Hm].
  - by rewrite bool_decide_eq_true_2 by (apply elem_of_cons; by left).
  - rewrite bool_decide_eq_false_2.
    2:{ intros Hin. apply list_elem_of_singleton in Hin. done. }
    cbn [first_match]. by repeat case_decide.
Qed.

Lemma validate_create_body text source tags :
  validate_PromptCreate (Some (create_body text source tags))
  = Some {| pc_text := text; pc_source := source; pc_tags := Some tags |}.
Proof.
  unfold validate_PromptCreate, create_body, opt_field.
  set (d := [("text", VStr text); ("source", of_option source);
             ("tags", VList (VStr <$> tags))]).
  change (assoc "text" d) with (Some (VStr text)).
  change (assoc "source" d) with (Some (of_option source)).
  change (assoc "tags" d) with (Some (VList (VStr <$> tags))).
  unfold as_str_list. rewrite mapM_as_str. by destruct source.
Qed.

(** X14. The round trip of the usage example, over HTTP. On a well-formed
    store, a POST to /prompts with a body of text, source and tags answers
    200 with the identifier drawn, which being fresh, non-empty and free of
    slashes, a GET on /prompts/<id> then answers 200 with the same text and
    source and with the tags of the body, each once. *)
Theorem http_round_trip E w uuid text source tags ev :
  graph_wf (w_db w) →
  find_nodes Prompt "id" uuid (w_db w) = [] →
  uuid ≠ "" → has_slash uuid = false →
  e_fault ev = None →
  let run := neo4j_run E in
  let posted := serve run (Request "POST" "/prompts" []
                             (Some (create_body text source tags))) (Env uuid None) w in
  posted.1 = Response 200 (VDict [("id", VStr uuid)]) ∧
  ∃ names,
    (serve run (Request "GET" ("/prompts/" +:+ uuid) [] None) ev posted.2).1
      = Response 200 (VDict [("id", VStr uuid); ("text", VStr text);
                             ("source", of_option source);
                             ("tags", VList (VStr <$> names))]) ∧
    NoDup names ∧
    ∀ x, x ∈ names ↔ x ∈ tags.
Proof.
  intros Hwf Hfresh Hne Hslash Hev. cbn zeta.
  assert (serve (neo4j_run E)
            (Request "POST" "/prompts" [] (Some (create_body text source tags)))
            (Env uuid None) w
          = respond (create_prompt (neo4j_run E)
                       {| pc_text := text; pc_source := source; pc_tags := Some tags |}
                       (Env uuid None) w)) as ->.
  { unfold serve, invoke. cbn [req_method req_path req_body].
    change (dispatch app_routes "POST" "/prompts") with (Dispatch EP_create_prompt []).
    cbn iota. by rewrite validate_create_body. }
  rewrite create_prompt_no_fault. cbn [respond fst snd pc_text pc_source pc_tags].
  rewrite or_empty_Some. split; [done|].
  destruct (created_linking uuid text source tags (w_db w) Hwf) as (_ & _ & Hnd & Hin).
  eexists. split_and!; [|exact Hnd|exact Hin].
  unfold serve, invoke. cbn [req_method req_path].
  rewrite dispatch_prompt_path by done. rewrite decide_True by done. cbn [assoc].
  rewrite decide_True by done.
  unfold get_prompt. rewrite read_transaction_get. rewrite Hev.
  erewrite run_transaction_no_fault;
    [|cbn [open_session w_db]; by apply _get_prompt_created].
  reflexivity.
Qed.

(** X14, with the request of the usage example. *)
Lemma http_round_trip_witness :
  let run := neo4j_run substring_engine in
  let body := create_body "Write a story about a robot" (Some "user") ["story"; "robot"] in
  let posted := serve run (Request "POST" "/prompts" [] (Some body))
                  (Env "3f2a" None) fresh_world in
  posted.1 = Response 200 (VDict [("id", VStr "3f2a")]) ∧
  (serve run (Request "GET" "/prompts/3f2a" [] None) (Env "e" None) posted.2).1
  = Response 200 (VDict [("id", VStr "3f2a"); ("text", VStr "Write a story about a robot");
                         ("source", VStr "user");
                         ("tags", VList [VStr "story"; VStr "robot"])]).
Proof.
  cbn zeta.
  destruct (http_round_trip substring_engine fresh_world "3f2a"
              "Write a story about a robot" (Some "user") ["story"; "robot"]
              (Env "e" None) graph_wf_empty eq_refl) as (H1 & names & H2 & _);
    [discriminate|reflexivity|reflexivity|].
  split; [exact H1|]. reflexivity.
Defined.

Lemma dispatch_methods method path ep ps :
  dispatch app_routes method path = Dispatch ep ps →
  (ep = EP_create_prompt ∧ method = "POST") ∨ (ep = EP_get_prompt ∧ method = "GET").
Proof.
  unfold dispatch. destruct (path_segments path) as [segs|]; [|done].
  destruct (first_match app_routes method segs false) as [d|] eqn:Hm.
  - intros ->. revert Hm. unfold app_routes. cbn [first_match].
    unfold route_matches. cbn [rt_path rt_methods rt_endpoint].
    destruct segs as [|a [|b [|c segs]]]; cbn [match_path];
      repeat (case_decide; subst; cbn [mbind option_bind]; try done);
      repeat (case_bool_decide; cbn [first_match]; try done);
      intros; simplify_eq;
      repeat match goal with
        | H : _ ∈ [_] |- _ => apply list_elem_of_singleton in H; subst
        end; auto.
  - by destruct (_ && _).
Qed.

Lemma created_indexes id text source tags g :
  g_indexes (created id text source tags g) = g_indexes g.
Proof.
  unfold created.
  change (g_indexes g) with (g_indexes (new_prompt id text source g).2).
  generalize (new_prompt id text source g).2 (new_prompt id text source g).1.
  induction tags as [|tag tags IH]; intros g0 p; [done|].
  cbn [foldl]. rewrite IH. unfold link_tag.
  assert (∀ ts g1, g_indexes (foldl (merge_rel p "HAS_TAG") g1 ts) = g_indexes g1) as Hf.
  { intros ts. induction ts as [|t ts IHt]; intros g1; [done|].
    cbn. by rewrite IHt, merge_rel_indexes. }
  rewrite Hf. unfold merge_node. by destruct (find_nodes Tag "name" tag g0).
Qed.

Lemma serve_cases E req ev w :
  (serve (neo4j_run E) req ev w).2 = w
  ∨ (∃ id, (serve (neo4j_run E) req ev w).2 = (get_prompt (neo4j_run E) id ev w).2)
  ∨ (req_method req = "POST" ∧
     ∃ prompt, (serve (neo4j_run E) req ev w).2
               = (create_prompt (neo4j_run E) prompt ev w).2).
Proof.
  unfold serve.
  destruct (dispatch app_routes (req_method req) (req_path req)) as [ep ps| | |] eqn:Hd;
    [|by left..].
  apply dispatch_methods in Hd as [[-> Hm]|[-> Hm]]; unfold invoke.
  - destruct (validate_PromptCreate (req_body req)) as [prompt|]; [|by left].
    right; right. split; [done|]. exists prompt. unfold respond.
    by destruct (create_prompt _ _ _ _).1.
  - destruct (assoc "prompt_id" ps) as [id|]; [|by left].
    right; left. exists id. unfold respond. by destruct (get_prompt _ _ _ _).1.
Qed.

(** X15. Over HTTP only a POST can change the store: a request of any
    other method, whatever its path, query and body, leaves the committed
    graph as it was. And no sequence of requests whatever creates the
    full-text index, the search endpoint being out of reach: the indexes
    of the store stay as they were. *)
Theorem only_post_changes_the_store E req ev reqs w :
  (req_method req ≠ "POST" → w_db (serve (neo4j_run E) req ev w).2 = w_db w) ∧
  g_indexes (w_db (serve_all (neo4j_run E) reqs w)) = g_indexes (w_db w).
Proof.
  split.
  - intros Hm. destruct (serve_cases E req ev w) as [->|[[id ->]|[? _]]]; [done| |done].
    apply get_prompt_keeps_db.
  - revert w. induction reqs as [|[r e] reqs IH]; intros w; [done|].
    cbn [serve_all foldl]. unfold serve_all in IH. rewrite IH. cbn [fst snd].
    destruct (serve_cases E r e w) as [->|[[id ->]|[_ [prompt ->]]]]; [done|..].
    + by rewrite get_prompt_keeps_db.
    + destruct (create_prompt_cases E prompt e w) as [[err ->]| ->]; cbn [snd w_db];
        [done|apply created_indexes].
Qed.

(** X15, on GET and DELETE requests after a create. *)
Lemma only_post_changes_the_store_witness :
  let run := neo4j_run substring_engine in
  let w := (create_prompt run {| pc_text := "a robot"; pc_source := None; pc_tags := None |}
              (Env "u" None) fresh_world).2 in
  w_db (serve run (Request "GET" "/prompts/search" [("q", "robot")] None)
          (Env "e" None) w).2 = w_db w ∧
  w_db (serve run (Request "DELETE" "/prompts/u" [] None) (Env "e" None) w).2 = w_db w.
Proof.
  cbn zeta. split.
  - match goal with
    | |- w_db (serve _ ?req ?ev ?w).2 = _ =>
        destruct (only_post_changes_the_store substring_engine req ev [] w) as [H _]
    end.
    apply H. discriminate.
  - match goal with
    | |- w_db (serve _ ?req ?ev ?w).2 = _ =>
        destruct (only_post_changes_the_store substring_engine req ev [] w) as [H _]
    end.
    apply H. discriminate.
Defined.

(** X16. The route table as requests meet it. A POST on /prompts goes to
    create and any other method there gets the 405; on /prompts/<id>, for
    any non-empty, slash-free id, a GET goes to get with that id and any
    other method gets the 405; /prompts/ with its trailing slash is
    redirected, whatever the method. *)
Theorem route_table method id :
  has_slash id = false → id ≠ "" →
  dispatch app_routes "POST" "/prompts" = Dispatch EP_create_prompt [] ∧
  (method ≠ "POST" → dispatch app_routes method "/prompts" = MethodNotAllowed) ∧
  dispatch app_routes "GET" ("/prompts/" +:+ id) = Dispatch EP_get_prompt [("prompt_id", id)] ∧
  (method ≠ "GET" → dispatch app_routes method ("/prompts/" +:+ id) = MethodNotAllowed) ∧
  dispatch app_routes method "/prompts/" = RedirectSlash.
Proof.
  intros Hs Hne. split_and!.
  - reflexivity.
  - intros Hm. unfold dispatch. cbn [path_segments].
    change (path_segments "/prompts") with (Some ["prompts"]).
    unfold app_routes. cbn [first_match]. unfold route_matches.
    cbn [rt_path rt_methods rt_endpoint match_path].
    rewrite decide_True by done.
    rewrite bool_decide_eq_false_2; [done|].
    intros Hin. apply list_elem_of_singleton in Hin. done.
  - rewrite dispatch_prompt_path by done. by rewrite decide_True.
  - intros Hm. rewrite dispatch_prompt_path by done. by rewrite decide_False.
  - unfold dispatch. change (path_segments "/prompts/") with (Some ["prompts"; ""]).
    unfold app_routes. cbn [first_match]. unfold route_matches.
    cbn [rt_path rt_methods rt_endpoint match_path].
    rewrite !decide_True by done. rewrite decide_False by done.
    cbn [first_match].
    change (toggle_slash ["prompts"; ""]) with ["prompts"].
    rewrite bool_decide_eq_true_2 by done.
    cbn [existsb rt_path rt_methods match_path andb]. rewrite decide_True by done.
    by destruct (bool_decide (method ∈ ["POST"])).
Qed.

(** X16, for PUT and an identifier in the shape of a UUID. *)
Lemma route_table_witness :
  dispatch app_routes "GET" "/prompts/0b0e7a4c-5f1d-4c56-9a57-3f0d2f6d7e11"
    = Dispatch EP_get_prompt [("prompt_id", "0b0e7a4c-5f1d-4c56-9a57-3f0d2f6d7e11")] ∧
  dispatch app_routes "PUT" "/prompts/0b0e7a4c-5f1d-4c56-9a57-3f0d2f6d7e11"
    = MethodNotAllowed ∧
  dispatch app_routes "PUT" "/prompts/" = RedirectSlash.
Proof.
  destruct (route_table "PUT" "0b0e7a4c-5f1d-4c56-9a57-3f0d2f6d7e11" eq_refl)
    as (_ & _ & H3 & H4 & H5); [discriminate|].
  split_and!; [exact H3|by apply H4|exact H5].
Defined.

(** ** Create, then search *)





(** ** No server error with the connection up *)

Lemma serve_status_cases E req ev w :
  (serve (neo4j_run E) req ev w).1 ∈
    [unprocessable; Response 405 (detail "Method Not Allowed"); Response 307 VNull;
     Response 404 (detail "Not Found")]
  ∨ (∃ id, serve (neo4j_run E) req ev w = respond (get_prompt (neo4j_run E) id ev w))
  ∨ (∃ prompt, serve (neo4j_run E) req ev w
               = respond (create_prompt (neo4j_run E) prompt ev w)).
Proof.
  unfold serve.
  destruct (dispatch app_routes (req_method req) (req_path req)) as [ep ps| | |] eqn:Hd.
  - apply dispatch_methods in Hd as [[-> Hm]|[-> Hm]]; unfold invoke.
    + destruct (validate_PromptCreate (req_body req)) as [prompt|];
        [right; right; by exists prompt|]. left. cbn. apply elem_of_cons. by left.
    + destruct (assoc "prompt_id" ps) as [id|]; [right; left; by exists id|].
      left. cbn. apply elem_of_cons. by left.
  - left. cbn. do 1 (apply elem_of_cons; right). apply elem_of_cons. by left.
  - left. cbn. do 2 (apply elem_of_cons; right). apply elem_of_cons. by left.
  - left. cbn. do 3 (apply elem_of_cons; right). apply elem_of_cons. by left.
Qed.

(** X18. With the connection up the HTTP interface never answers 500 on
    a store the service built: for every request whose body, when it has
    one, decodes as JSON, on a store whose Prompt nodes have [id] and
    [text] (as after any sequence of operations from the empty store), the
    status is 200, 307, 404, 405 or 422. A body that does not decode is
    answered by the framework itself and is not a [request]. *)
Theorem no_server_error_with_connection_up E ops req ev w :
  schema_ok (w_db w) →
  e_fault ev = None →
  resp_status (serve (neo4j_run E) req ev (run_ops (neo4j_run E) ops w)).1
    ∈ [200; 307; 404; 405; 422].
Proof.
  intros H0 Hev. set (w' := run_ops (neo4j_run E) ops w).
  assert (schema_ok (w_db w')) as H by by apply run_ops_schema_ok.
  destruct (serve_status_cases E req ev w') as [Hin|[[id ->]|[prompt ->]]].
  - repeat (apply elem_of_cons in Hin as [->|Hin]; [cbn; set_solver|]).
    by apply elem_of_nil in Hin.
  - destruct (find_nodes Prompt "id" id (w_db w')) as [|p ps] eqn:Hfind.
    + rewrite get_prompt_absent by done. cbn. set_solver.
    + rewrite (get_prompt_found E id ev w' p ps Hfind Hev).
      assert (p ∈ g_nodes (w_db w') ∧ node_matches Prompt "id" id p) as [Hp [Hl _]].
      { apply find_nodes_elem. rewrite Hfind. apply elem_of_cons. by left. }
      unfold schema_ok in H. rewrite Forall_forall in H. apply H in Hp.
      unfold node_ok in Hp. rewrite Hl in Hp. destruct Hp as [[i Hi] [t Ht]].
      unfold prompt_record. rewrite Hi, Ht. cbn. set_solver.
  - destruct ev as [uuid fault]. cbn in Hev. subst fault.
    rewrite create_prompt_no_fault. cbn. set_solver.
Qed.

(** X18, on requests of several kinds against a store with one prompt. *)
Lemma no_server_error_with_connection_up_witness :
  let run := neo4j_run substring_engine in
  let ops := [(Create {| pc_text := "a robot"; pc_source := None; pc_tags := Some ["x"] |},
               Env "u" None)] in
  let w := run_ops run ops fresh_world in
  resp_status (serve run (Request "GET" "/prompts/u" [] None) (Env "e" None) w).1 = 200 ∧
  resp_status (serve run (Request "GET" "/prompts/search" [("q", "(")] None)
                 (Env "e" None) w).1 ∈ [200; 307; 404; 405; 422].
Proof.
  cbn zeta. split; [reflexivity|].
  apply (no_server_error_with_connection_up substring_engine); [apply Forall_nil_2|done].
Defined.

(** ** Connection settings *)

(** Unset variables give the documented defaults; a variable that is set,
    be it to the empty string, is used as it is. *)
Lemma get_driver_settings environ :
  assoc "NEO4J_URI" environ = None →
  assoc "NEO4J_USER" environ = None →
  assoc "NEO4J_PASSWORD" environ = Some "" →
  get_driver environ = DriverConfig "bolt://localhost:7687" "neo4j" "".
Proof. intros H1 H2 H3. unfold get_driver, getenv. by rewrite H1, H2, H3. Qed.
